(** * Session pool, streaming broker, connection registry and rate gate

    A shallow embedding of the parts of the three backends that own
    bounded, shared state:

    - [E2B]: [backend/services/e2b_service.py], the sandbox session pool
      ([_create_session], [_close_session]) and the two streaming
      generators ([execute_python_code], [execute_javascript_code]);
    - [WS]: [backend/api/websocket_manager.py], the connection registry;
    - [Dispatch]: [backend/main.py] and [backend/api/code_execution.py],
      the WebSocket handler and the REST endpoint that start executions;
    - [Limiter] and [AsyncLimiter]: [app/utils/rate_limiter.py], the
      sliding-window [RateLimiter] and the semaphore-backed
      [AsyncRateLimiter].

    Remote collaborators (the sandbox API, the client's channel, the clock)
    are not code of the repository: every call to them takes its outcome
    as an explicit argument, and every function returns the list of remote
    calls it made next to the new state. *)

From Stdlib Require Import ZArith.
From stdpp Require Import gmap strings list fin_maps pretty sorting.

Local Open Scope string_scope.
Local Open Scope list_scope.
Local Open Scope nat_scope.

(** ** Python values shared by the modules *)

(** An exception caught by [except Exception as e]; only [str(e)] is ever
    used by the code, so an exception is its message. *)
Definition exn := string.

Inductive result (A : Type) : Type :=
| Ok (a : A)
| Raise (e : exn).
Arguments Ok {A} a.
Arguments Raise {A} e.

(** The newline character of ["\n"]. *)
Definition nl : string := String (Ascii.ascii_of_nat 10) EmptyString.

(** Whether a call raised. *)
Definition raised {A : Type} (r : result A) : bool :=
  match r with
  | Raise _ => true
  | Ok _ => false
  end.

(** [s.replace(old, new)] for a pattern [old] of one character: every
    occurrence is replaced, from left to right. *)
Fixpoint replace_char (old : Ascii.ascii) (new : string) (s : string) : string :=
  match s with
  | EmptyString => EmptyString
  | String c rest =>
      if decide (c = old) then new +:+ replace_char old new rest
      else String c (replace_char old new rest)
  end.

(** The characters of a string. *)
Fixpoint chars (s : string) : list Ascii.ascii :=
  match s with
  | EmptyString => []
  | String c rest => c :: chars rest
  end.

Definition newline : Ascii.ascii := Ascii.ascii_of_nat 10.
Definition quote : Ascii.ascii := Ascii.ascii_of_nat 39.
Definition backslash : Ascii.ascii := Ascii.ascii_of_nat 92.
Definition dquote : Ascii.ascii := Ascii.ascii_of_nat 34.

Definition str (c : Ascii.ascii) : string := String c EmptyString.

(** ** Insertion-ordered dictionaries

  [active_sessions] is a Python [dict] and [_create_session] reads its
  iteration order ([next(iter(...))]), so the order of insertion is part
  of the data: a list of bindings with pairwise distinct keys, oldest
  binding first. *)
Section PyDict.
Context {V : Type}.

Definition pydict := list (string * V).

Fixpoint dict_get (k : string) (d : pydict) : option V :=
  match d with
  | [] => None
  | (k', v) :: d' => if decide (k' = k) then Some v else dict_get k d'
  end.

(** [k in d] *)
Definition dict_in (k : string) (d : pydict) : bool :=
  match dict_get k d with Some _ => true | None => false end.

(** [d[k] = v]: an existing key keeps its position, a new key goes last. *)
Fixpoint dict_set (k : string) (v : V) (d : pydict) : pydict :=
  match d with
  | [] => [(k, v)]
  | (k', v') :: d' =>
      if decide (k' = k) then (k', v) :: d' else (k', v') :: dict_set k v d'
  end.

(** [del d[k]] *)
Fixpoint dict_del (k : string) (d : pydict) : pydict :=
  match d with
  | [] => []
  | (k', v') :: d' =>
      if decide (k' = k) then d' else (k', v') :: dict_del k d'
  end.

(** [next(iter(d))]: the oldest key, [StopIteration] on an empty dict. *)
Definition dict_first (d : pydict) : option string :=
  match d with
  | [] => None
  | (k, _) :: _ => Some k
  end.

Definition dict_keys (d : pydict) : list string := d.*1.

End PyDict.
Arguments pydict V : clear implicits.

(** ** The sandbox service ([backend/services/e2b_service.py]) *)
Module E2B.

(** The remote handle of one provisioned sandbox (an [AsyncSandbox]). *)
Definition AsyncSandbox := nat.

Inductive interpreter := Python3 | Node.

(** Calls made to the sandbox API, in the order they are made. *)
Inductive remote_call :=
| SandboxCreate                                   (* AsyncSandbox.create(api_key=...) *)
| SandboxClose (s : AsyncSandbox)                 (* session.close() *)
| ProcessStart (s : AsyncSandbox) (i : interpreter). (* session.process.start(cmd=...) *)

Record E2BService := {
  api_key : option string;
  active_sessions : pydict AsyncSandbox;
  max_sessions : nat
}.

Definition with_sessions (self : E2BService) (d : pydict AsyncSandbox) :=
  {| api_key := api_key self; active_sessions := d;
     max_sessions := max_sessions self |}.

(** [E2BService.__init__], with [settings.e2b_api_key] as argument. *)
Definition __init__ (key : option string) : E2BService :=
  {| api_key := key; active_sessions := []; max_sessions := 10 |}.

(** [bool(self.api_key)]: [None] and the empty string are false. *)
Definition is_available (self : E2BService) : bool :=
  match api_key self with
  | Some k => bool_decide (k ≠ "")
  | None => false
  end.

(** [_close_session]: the binding is deleted after [close()] returned;
    when [close()] raises, the [del] is skipped and the error is logged. *)
Definition _close_session (self : E2BService) (session_id : string)
    (close : result unit) : E2BService * list remote_call :=
  match dict_get session_id (active_sessions self) with
  | Some s =>
      match close with
      | Ok _ =>
          (with_sessions self (dict_del session_id (active_sessions self)),
           [SandboxClose s])
      | Raise _ => (self, [SandboxClose s])
      end
  | None => (self, [])
  end.

(** [_create_session]. [evict_close] is the outcome of closing the oldest
    session, read only when the pool is full; [create] is the outcome of
    [AsyncSandbox.create]. On an empty dict [next(iter(...))] raises
    [StopIteration], which leaves a coroutine as a [RuntimeError]. *)
Definition _create_session (self : E2BService) (session_id : string)
    (evict_close : result unit) (create : result AsyncSandbox)
  : result AsyncSandbox * E2BService * list remote_call :=
  let evicted :=
    if decide (max_sessions self ≤ length (active_sessions self))%nat then
      match dict_first (active_sessions self) with
      | Some oldest_session_id =>
          Ok (_close_session self oldest_session_id evict_close)
      | None => Raise "coroutine raised StopIteration"
      end
    else Ok (self, []) in
  match evicted with
  | Raise e => (Raise e, self, [])
  | Ok (self1, log) =>
      match create with
      | Raise e => (Raise e, self1, log ++ [SandboxCreate])
      | Ok session =>
          (Ok session,
           with_sessions self1 (dict_set session_id session (active_sessions self1)),
           log ++ [SandboxCreate])
      end
  end.

(** [initialize]: a probe session is created under the key ["test"] and
    its sandbox closed; the binding stays in [active_sessions]. *)
Definition initialize (self : E2BService) (evict_close : result unit)
    (create : result AsyncSandbox) : E2BService * list remote_call :=
  if negb (is_available self) then (self, [])
  else
    match _create_session self "test" evict_close create with
    | (Ok session, self1, log) => (self1, log ++ [SandboxClose session])
    | (Raise _, self1, log) => (self1, log)
    end.

(** [cleanup]: every session is asked to close, an exception of a
    [close()] is logged, and the dict is cleared afterwards whatever the
    closes did. *)
Definition cleanup (self : E2BService) (close : string → result unit)
  : E2BService * list remote_call :=
  (with_sessions self [], (λ kv, SandboxClose kv.2) <$> active_sessions self).

(** What the sandbox does during one run of a generator. *)
Record process := {
  output : list string;        (* [output.line] of each item; [None] reads as the empty line *)
  output_error : option exn;   (* an exception raised by the stream after them *)
  exit_code : Z;
  elapsed : Z                  (* seconds from start to the end of the stream *)
}.

Record sandbox_env := {
  evict_close : result unit;
  create : result AsyncSandbox;
  start : result process;
  final_close : result unit
}.

Definition unavailable_chunk : string :=
  "E2B service not available. Please configure E2B API key.".

Definition error_chunk (e : exn) : string :=
  "Execution error: " +:+ e +:+ nl.

Definition exit_chunk (code : Z) : string :=
  "Execution completed with exit code: " +:+ pretty code +:+ nl.

(** The body of the [try] after the process started: one chunk per
    non-empty line, then the exit-code chunk when the code is not 0; an
    exception of the stream ends the loop in the [except] clause. *)
Definition stream_output (p : process) : list string :=
  ((λ line, line +:+ nl) <$> filter (λ line, line ≠ "") (output p)) ++
  match output_error p with
  | Some e => [error_chunk e]
  | None => if decide (exit_code p ≠ 0%Z) then [exit_chunk (exit_code p)] else []
  end.

(** The two generators differ in the command line only. A run returns
    the chunks yielded, the service afterwards and the remote calls. *)
Definition execute_in_sandbox (i : interpreter) (self : E2BService)
    (code execution_id : string) (env : sandbox_env)
  : list string * E2BService * list remote_call :=
  if negb (is_available self) then ([unavailable_chunk], self, [])
  else
    match _create_session self execution_id (evict_close env) (create env) with
    | (Raise e, self1, log1) =>
        (* [session] is still [None]: the [finally] closes nothing *)
        ([error_chunk e], self1, log1)
    | (Ok session, self1, log1) =>
        let chunks :=
          match start env with
          | Raise e => [error_chunk e]
          | Ok p => stream_output p
          end in
        let '(self2, log2) := _close_session self1 execution_id (final_close env) in
        (chunks, self2, log1 ++ [ProcessStart session i] ++ log2)
    end.

Definition execute_python_code := execute_in_sandbox Python3.
Definition execute_javascript_code := execute_in_sandbox Node.

(** *** Executions in flight

    A generator holds its session from the return of [_create_session]
    until its [finally] clause, and generators of different clients
    interleave between these two points. [running] lists the execution
    ids that are between them: the sessions that are executing.
    [Acquire] is the [_create_session] at the head of a generator and
    [Release] the [_close_session] of its [finally] clause. The service
    has two more callers of the pool: [initialize], which creates its
    probe session for no execution ([Probe]), and [cleanup]
    ([Shutdown]). [probed] records that [initialize] has been called. *)
Inductive pool_op :=
| Acquire (execution_id : string) (evict_close : result unit)
          (create : result AsyncSandbox)
| Release (execution_id : string) (close : result unit)
| Probe (evict_close : result unit) (create : result AsyncSandbox)
| Shutdown (close : string → result unit).

Record pool := {
  service : E2BService;
  running : list string;
  probed : bool
}.

Definition pool_step (p : pool) (op : pool_op) : pool :=
  match op with
  | Acquire execution_id evict_close create =>
      match _create_session (service p) execution_id evict_close create with
      | (Ok _, self, _) =>
          {| service := self; running := running p ++ [execution_id];
             probed := probed p |}
      | (Raise _, self, _) =>
          {| service := self; running := running p; probed := probed p |}
      end
  | Release execution_id close =>
      {| service := (_close_session (service p) execution_id close).1;
         running := filter (λ e, e ≠ execution_id) (running p);
         probed := probed p |}
  | Probe evict_close create =>
      {| service := (initialize (service p) evict_close create).1;
         running := running p;
         probed := true |}
  | Shutdown close =>
      {| service := (cleanup (service p) close).1;
         running := running p;
         probed := probed p |}
  end.

Definition pool_run (p : pool) (ops : list pool_op) : pool :=
  foldl pool_step p ops.

Definition live_sessions (p : pool) : nat :=
  length (active_sessions (service p)).

(** The session [_create_session] closes first when called in this
    state, if any. *)
Definition eviction_victim (self : E2BService) : option string :=
  if decide (max_sessions self ≤ length (active_sessions self))%nat
  then dict_first (active_sessions self) else None.

(** The evicting [close()] of every [_create_session] of a history
    returns. *)
Definition evictions_succeed (ops : list pool_op) : Prop :=
  Forall (λ op, match op with
                | Acquire _ evict_close _ | Probe evict_close _ =>
                    evict_close = Ok tt
                | Release _ _ | Shutdown _ => True
                end) ops.

(** *** Scenarios

    A service with a key, and [n] executions started one after the other
    on it, none of which has reached its [finally] clause. *)
Definition fresh_pool : pool :=
  {| service := __init__ (Some "e2b_test_key"); running := [];
     probed := false |}.

Definition start_executions (n : nat) : list pool_op :=
  (λ i : nat, Acquire ("e" +:+ pretty i) (Ok tt) (Ok i)) <$> seq 0 n.

Definition full_pool : pool := pool_run fresh_pool (start_executions 10).

(** The same environment with a remote process that takes [secs]
    seconds. *)
Definition with_elapsed (env : sandbox_env) (secs : Z) : sandbox_env :=
  {| evict_close := evict_close env;
     create := create env;
     start :=
       match start env with
       | Ok p => Ok {| output := output p; output_error := output_error p;
                       exit_code := exit_code p; elapsed := secs |}
       | Raise e => Raise e
       end;
     final_close := final_close env |}.

(** A sandbox whose process prints one line and ends after 31 seconds. *)
Definition slow_process : process :=
  {| output := ["tick"]; output_error := None; exit_code := 0; elapsed := 31 |}.

Definition slow_env : sandbox_env :=
  {| evict_close := Ok tt; create := Ok 7; start := Ok slow_process;
     final_close := Ok tt |}.

(** A sandbox API that refuses to provision. *)
Definition failing_env (e : exn) : sandbox_env :=
  {| evict_close := Ok tt; create := Raise e; start := Raise e;
     final_close := Ok tt |}.

(** *** Command lines and session listing *)

(** The lines of the Python template of [_wrap_python_code], around the
    escaped code. *)
Definition python_template (escaped_code : string) : list string :=
  [ ""; "import sys"; "import traceback"; ""; "try:";
    "    " +:+ escaped_code;
    "except Exception as e:";
    "    print(f" +:+ str dquote +:+ "Error: {e}" +:+ str dquote
      +:+ ", file=sys.stderr)";
    "    traceback.print_exc(file=sys.stderr)"; "" ].

(** [_wrap_python_code]: quotes escaped, template filled, newlines turned
    into ["; "]. *)
Definition _wrap_python_code (code : string) : string :=
  let escaped_code := replace_char quote (str backslash +:+ str quote) code in
  let wrapped := String.concat nl (python_template escaped_code) in
  replace_char newline "; " wrapped.

Definition javascript_template (escaped_code : string) : list string :=
  [ ""; "try {";
    "    " +:+ escaped_code;
    "} catch (error) {";
    "    console.error('Error:', error.message);";
    "    console.error(error.stack);";
    "}"; "" ].

(** [_wrap_javascript_code]: the same with newlines turned into [" "]. *)
Definition _wrap_javascript_code (code : string) : string :=
  let escaped_code := replace_char quote (str backslash +:+ str quote) code in
  let wrapped := String.concat nl (javascript_template escaped_code) in
  replace_char newline " " wrapped.

(** What the Python template puts before and after the code once its
    newlines have been replaced. *)
Definition python_before : string :=
  "; import sys; import traceback; ; try:;     ".

Definition python_after : string :=
  "; except Exception as e:;     print(f" +:+ str dquote +:+ "Error: {e}"
    +:+ str dquote
    +:+ ", file=sys.stderr);     traceback.print_exc(file=sys.stderr); ".

(** A chunk that ends a line. *)
Definition ends_with_newline (chunk : string) : Prop :=
  last (chars chunk) = Some newline.

(** The [cmd] argument of [session.process.start]. *)
Definition command (i : interpreter) (code : string) : string :=
  match i with
  | Python3 => "python3 -c '" +:+ _wrap_python_code code +:+ "'"
  | Node => "node -e '" +:+ _wrap_javascript_code code +:+ "'"
  end.

(** The dict returned by [get_session_info]. *)
Record session_info := {
  info_session_id : string;
  info_status : string;
  info_created_at : option string
}.

(** [get_session_info]. [created_at] stands for
    [getattr(session, 'created_at', None)], an attribute of the remote
    handle. *)
Definition get_session_info (created_at : AsyncSandbox → option string)
    (self : E2BService) (session_id : string) : option session_info :=
  match dict_get session_id (active_sessions self) with
  | Some session =>
      Some {| info_session_id := session_id; info_status := "active";
              info_created_at := created_at session |}
  | None => None
  end.

(** [list_active_sessions]: one [sessions[session_id] = ...] per key, in
    the order of the dict. *)
Definition list_active_sessions (created_at : AsyncSandbox → option string)
    (self : E2BService) : pydict (option session_info) :=
  foldl (λ sessions session_id,
           dict_set session_id (get_session_info created_at self session_id)
             sessions)
        [] (dict_keys (active_sessions self)).

(** Every registered session belongs to an execution in flight or is
    the probe that [initialize] left under ["test"], and no session id is
    registered twice. *)
Definition running_or_probe (p : pool) : Prop :=
  NoDup (dict_keys (active_sessions (service p))) ∧
  ∀ k, k ∈ dict_keys (active_sessions (service p)) →
       k ∈ running p ∨ (k = "test" ∧ probed p = true).

(** The final [close()] of every [Release] of a history returns. *)
Definition releases_succeed (ops : list pool_op) : Prop :=
  Forall (λ op, match op with
                | Release _ close => close = Ok tt
                | Acquire _ _ _ | Probe _ _ | Shutdown _ => True
                end) ops.

(** A service start, three executions, and the end of the second. *)
Definition probe_then_executions : list pool_op :=
  Probe (Ok tt) (Ok 99) :: start_executions 3 ++ [Release "e1" (Ok tt)].

End E2B.

(** ** The connection registry ([backend/api/websocket_manager.py]) *)
Module WS.

(** A client's channel (a FastAPI [WebSocket]), named by a handle. *)
Definition WebSocket := nat.

(** Calls [connect] makes on a channel. *)
Inductive channel_call :=
| WsAccept (ws : WebSocket)                               (* websocket.accept() *)
| WsClose (ws : WebSocket) (code : Z) (reason : string).  (* websocket.close(code, reason) *)

(** [active_connections] is a Python [dict]: [broadcast] and
    [close_all_connections] iterate over it, in the order of insertion. *)
Record WebSocketManager := {
  active_connections : pydict WebSocket;
  max_connections : nat
}.

Definition with_connections (self : WebSocketManager)
    (d : pydict WebSocket) : WebSocketManager :=
  {| active_connections := d; max_connections := max_connections self |}.

Definition __init__ : WebSocketManager :=
  {| active_connections := []; max_connections := 100 |}.

(** [connect], run without another coroutine in between. [handshake] is
    the outcome of the one call made on the new channel: [close] when the
    registry is full, [accept] otherwise. An exception of that call
    leaves [connect] before the registry is written. *)
Definition connect (self : WebSocketManager) (websocket : WebSocket)
    (client_id : string) (handshake : result unit)
  : result unit * WebSocketManager * list channel_call :=
  if decide (max_connections self ≤ length (active_connections self))%nat then
    (handshake, self, [WsClose websocket 1008 "Maximum connections reached"])
  else
    match handshake with
    | Raise e => (Raise e, self, [WsAccept websocket])
    | Ok _ =>
        (Ok tt,
         with_connections self
           (dict_set client_id websocket (active_connections self)),
         [WsAccept websocket])
    end.

(** [disconnect], on the registry ([connection_tasks] is never written by
    the code and stays empty). *)
Definition disconnect (self : WebSocketManager) (client_id : string)
  : WebSocketManager :=
  with_connections self (dict_del client_id (active_connections self)).

Definition get_connection_count (self : WebSocketManager) : nat :=
  length (active_connections self).

Definition is_connected (self : WebSocketManager) (client_id : string) : bool :=
  dict_in client_id (active_connections self).

#[global] Instance channel_call_eq_dec : EqDecision channel_call.
Proof. solve_decision. Defined.

(** A registry that knows one client, ["alice"], on channel 1. *)
Definition one_client : WebSocketManager :=
  {| active_connections := [("alice", 1)]; max_connections := 100 |}.

(** A registry of three clients, in the order of their connection. *)
Definition three_clients : WebSocketManager :=
  {| active_connections := [("alice", 1); ("bob", 2); ("carol", 3)];
     max_connections := 100 |}.

(** *** Delivery *)

(** Calls the manager makes on registered channels. *)
Inductive transport_call :=
| SendText (ws : WebSocket) (message : string)   (* connection.send_text(message) *)
| Close (ws : WebSocket).                        (* connection.close() *)

#[global] Instance transport_call_eq_dec : EqDecision transport_call.
Proof. solve_decision. Defined.

(** [send_personal_message]: an unknown client is skipped; a failing send
    is logged and the client disconnected. *)
Definition send_personal_message (self : WebSocketManager)
    (message client_id : string) (send : result unit)
  : WebSocketManager * list transport_call :=
  match dict_get client_id (active_connections self) with
  | Some ws =>
      match send with
      | Ok _ => (self, [SendText ws message])
      | Raise _ => (disconnect self client_id, [SendText ws message])
      end
  | None => (self, [])
  end.

(** The clients [broadcast] sends to, in the order of the loop: all but
    [exclude_client], oldest registration first. *)
Definition broadcast_targets (self : WebSocketManager)
    (exclude_client : option string) : list (string * WebSocket) :=
  filter (λ kv, Some kv.1 ≠ exclude_client) (active_connections self).

(** [broadcast]. [send] gives the outcome of the send to each client. The
    clients whose send raised are collected during the iteration and
    disconnected one by one after it. *)
Definition broadcast (self : WebSocketManager) (message : string)
    (exclude_client : option string) (send : string → result unit)
  : WebSocketManager * list transport_call :=
  let targets := broadcast_targets self exclude_client in
  let disconnected_clients :=
    (filter (λ kv, raised (send kv.1) = true) targets).*1 in
  (foldl disconnect self disconnected_clients,
   (λ kv, SendText kv.2 message) <$> targets).

(** [close_all_connections]: every channel is asked to close, in the
    order of registration; an exception is logged; the registry is
    cleared. *)
Definition close_all_connections (self : WebSocketManager)
  : WebSocketManager * list transport_call :=
  (with_connections self [],
   (λ kv, Close kv.2) <$> active_connections self).

(** *** Histories

    [connect] is a coroutine: between the capacity check of its first
    line and the write of its last line it is suspended in
    [await websocket.accept()], and the event loop runs other coroutines
    meanwhile, other connects among them. A history is therefore a
    sequence of the two halves of [connect] ([ConnectBegin], up to the
    suspension, and [ConnectEnd], from the return of [accept]) and of the
    other calls. These write the registry in one piece and without
    suspending: [disconnect] is synchronous, and [send_personal_message],
    [broadcast] and [close_all_connections] write after their last
    [await], by [disconnect] or [clear()].

    [accepting] lists the connects that passed the check and are
    suspended; [overlapped] counts the connects that passed the check
    while another one was suspended. *)
Inductive registry_op :=
| ConnectBegin (websocket : WebSocket) (client_id : string)
| ConnectEnd (websocket : WebSocket) (client_id : string) (accept : result unit)
| Disconnect (client_id : string)
| SendPersonal (message client_id : string) (send : result unit)
| Broadcast (message : string) (exclude_client : option string)
            (send : string → result unit)
| CloseAll.

Record registry := {
  manager : WebSocketManager;
  accepting : list (string * WebSocket);
  overlapped : nat
}.

(** A registry on which no connect is under way. *)
Definition idle (self : WebSocketManager) : registry :=
  {| manager := self; accepting := []; overlapped := 0 |}.

Definition with_manager (st : registry) (self : WebSocketManager) : registry :=
  {| manager := self; accepting := accepting st; overlapped := overlapped st |}.

(** The suspended connects without the first occurrence of [x]; [None]
    when [x] is not among them. *)
Fixpoint resumed (x : string * WebSocket) (l : list (string * WebSocket))
  : option (list (string * WebSocket)) :=
  match l with
  | [] => None
  | y :: l' =>
      if decide (y = x) then Some l' else (λ r, y :: r) <$> resumed x l'
  end.

Definition registry_step (st : registry) (op : registry_op) : registry :=
  let self := manager st in
  match op with
  | ConnectBegin websocket client_id =>
      if decide (max_connections self ≤ length (active_connections self))%nat
      then st
      else
        {| manager := self;
           accepting := accepting st ++ [(client_id, websocket)];
           overlapped :=
             overlapped st + (if accepting st is [] then 0 else 1) |}
  | ConnectEnd websocket client_id accept =>
      match resumed (client_id, websocket) (accepting st) with
      | None => st
      | Some rest =>
          {| manager :=
               match accept with
               | Ok _ =>
                   with_connections self
                     (dict_set client_id websocket (active_connections self))
               | Raise _ => self
               end;
             accepting := rest;
             overlapped := overlapped st |}
      end
  | Disconnect client_id => with_manager st (disconnect self client_id)
  | SendPersonal message client_id send =>
      with_manager st (send_personal_message self message client_id send).1
  | Broadcast message exclude_client send =>
      with_manager st (broadcast self message exclude_client send).1
  | CloseAll => with_manager st (close_all_connections self).1
  end.

Definition registry_run (st : registry) (ops : list registry_op) : registry :=
  foldl registry_step st ops.

(** [n] clients that connect one after the other, and the registry they
    leave. *)
Definition arrivals (n : nat) : list registry_op :=
  flat_map (λ i : nat, [ConnectBegin i ("c" +:+ pretty i);
                        ConnectEnd i ("c" +:+ pretty i) (Ok tt)]) (seq 0 n).

Definition crowd (n : nat) : WebSocketManager :=
  manager (registry_run (idle __init__) (arrivals n)).

(** Two connects that both pass the check before either returns from
    [accept]. *)
Definition overlapping_connects (ws1 ws2 : WebSocket) (c1 c2 : string)
  : list registry_op :=
  [ConnectBegin ws1 c1; ConnectBegin ws2 c2;
   ConnectEnd ws1 c1 (Ok tt); ConnectEnd ws2 c2 (Ok tt)].

(** [websocket_endpoint] of [main.py], seen from the registry. [connect]
    stands before the [try]: its exception leaves the endpoint. The
    [while True] loop talks to the client's channel only, never to the
    manager, and can be left by an exception only; both [except] clauses
    call [disconnect]. The result is the registry once the endpoint has
    returned. *)
Definition websocket_endpoint (self : WebSocketManager) (websocket : WebSocket)
    (client_id : string) (handshake : result unit)
  : result unit * WebSocketManager :=
  match connect self websocket client_id handshake with
  | (Raise e, self1, _) => (Raise e, self1)
  | (Ok _, self1, _) => (Ok tt, disconnect self1 client_id)
  end.

End WS.

(** ** The dispatcher ([backend/main.py], [backend/api/code_execution.py]) *)
Module Dispatch.

(** Outbound messages of one execution, by their ["type"] field. *)
Inductive event :=
| execution_start (execution_id : string)
| execution_output (execution_id : string) (data : string)
| execution_complete (execution_id : string)
| execution_error (execution_id : string) (error : string).

#[global] Instance event_eq_dec : EqDecision event.
Proof. solve_decision. Defined.

Definition is_terminal (e : event) : bool :=
  match e with
  | execution_complete _ | execution_error _ _ => true
  | _ => false
  end.

Definition is_output (e : event) : bool :=
  match e with
  | execution_output _ _ => true
  | _ => false
  end.

Definition is_error (e : event) : bool :=
  match e with
  | execution_error _ _ => true
  | _ => false
  end.

Definition event_id (e : event) : string :=
  match e with
  | execution_start i | execution_output i _
  | execution_complete i | execution_error i _ => i
  end.

(** The requesting client's channel. [sent] lists every message handed to
    [send_text], [delivered] those it accepted. [remaining] is the number
    of messages the channel still accepts before the client is gone
    ([None]: the client stays). [failure] is [str(e)] of the exception the
    transport raises once the client is gone: the code does not choose
    it, the [except] clause of the handler forwards it as it comes. *)
Record channel := {
  sent : list event;
  delivered : list event;
  remaining : option nat;
  failure : exn
}.

(** A channel whose client stays: nothing is ever raised on it. *)
Definition open_channel : channel :=
  {| sent := []; delivered := []; remaining := None; failure := "" |}.

(** [send_text] on a channel, keeping the book of what was handed over. *)
Definition hand_over (ch : channel) (e : event) (accepted : bool)
    (left : option nat) : channel :=
  {| sent := sent ch ++ [e];
     delivered := if accepted then delivered ch ++ [e] else delivered ch;
     remaining := left;
     failure := failure ch |}.

Definition send_text (ch : channel) (e : event) : result unit * channel :=
  match remaining ch with
  | Some 0 => (Raise (failure ch), hand_over ch e false (Some 0))
  | Some (S n) => (Ok tt, hand_over ch e true (Some n))
  | None => (Ok tt, hand_over ch e true None)
  end.

(** The operand of an [await]. Calling an [async def] function whose body
    contains [yield] runs none of the body: it returns an async generator
    object. Such an object is consumed by [async for]; it has no
    [__await__], so awaiting it raises [TypeError]. *)
Inductive awaitable (A : Type) : Type :=
| Coroutine (value : A)
| AsyncGenerator (body : A).
Arguments Coroutine {A} value.
Arguments AsyncGenerator {A} body.

Definition await {A : Type} (x : awaitable A) : result A :=
  match x with
  | Coroutine value => Ok value
  | AsyncGenerator _ =>
      Raise "object async_generator can't be used in 'await' expression"
  end.

(** One run of a generator of the service: chunks, service, remote calls. *)
Definition generator_run : Type :=
  list string * E2B.E2BService * list E2B.remote_call.

(** [e2b_service.execute_python_code(code, execution_id)] and its
    JavaScript twin are calls of async generator functions. *)
Definition call_execute_python_code (svc : E2B.E2BService)
    (code execution_id : string) (env : E2B.sandbox_env)
  : awaitable generator_run :=
  AsyncGenerator (E2B.execute_python_code svc code execution_id env).

Definition call_execute_javascript_code (svc : E2B.E2BService)
    (code execution_id : string) (env : E2B.sandbox_env)
  : awaitable generator_run :=
  AsyncGenerator (E2B.execute_javascript_code svc code execution_id env).

(** The loop [async for chunk in result: await websocket.send_text(...)]:
    the first failing send leaves the loop with its exception. *)
Fixpoint relay (execution_id : string) (chunks : list string) (ch : channel)
  : result unit * channel :=
  match chunks with
  | [] => (Ok tt, ch)
  | chunk :: rest =>
      match send_text ch (execution_output execution_id chunk) with
      | (Ok _, ch1) => relay execution_id rest ch1
      | (Raise e, ch1) => (Raise e, ch1)
      end
  end.

(** An inbound message after [json.loads]: a dict of its fields. *)
Definition Message : Type := gmap string string.

(** [message.get(key, fallback)] *)
Definition get (m : Message) (key fallback : string) : string :=
  default fallback (m !! key).

(** The [try] block of [handle_code_execution]. [execution_id] is the
    fresh [str(uuid4())]; it is bound before anything can raise. *)
Definition handle_code_execution_try (ch : channel) (svc : E2B.E2BService)
    (message : Message) (execution_id : string) (env : E2B.sandbox_env)
  : result unit * channel * E2B.E2BService * list E2B.remote_call :=
  let code := get message "code" "" in
  let language := get message "language" "python" in
  match send_text ch (execution_start execution_id) with
  | (Raise e, ch1) => (Raise e, ch1, svc, [])
  | (Ok _, ch1) =>
      let awaited :=
        if decide (language = "python") then
          await (call_execute_python_code svc code execution_id env)
        else if decide (language = "javascript") then
          await (call_execute_javascript_code svc code execution_id env)
        else Raise ("Unsupported language: " +:+ language) in
      match awaited with
      | Raise e => (Raise e, ch1, svc, [])
      | Ok (chunks, svc1, log) =>
          match relay execution_id chunks ch1 with
          | (Raise e, ch2) => (Raise e, ch2, svc1, log)
          | (Ok _, ch2) =>
              let '(r, ch3) := send_text ch2 (execution_complete execution_id) in
              (r, ch3, svc1, log)
          end
      end
  end.

(** [handle_code_execution]: the [except Exception] clause sends one
    [execution_error]; an exception of that send leaves the handler. *)
Definition handle_code_execution (ch : channel) (svc : E2B.E2BService)
    (message : Message) (execution_id : string) (env : E2B.sandbox_env)
  : result unit * channel * E2B.E2BService * list E2B.remote_call :=
  match handle_code_execution_try ch svc message execution_id env with
  | (Ok _, ch1, svc1, log) => (Ok tt, ch1, svc1, log)
  | (Raise e, ch1, svc1, log) =>
      let '(r, ch2) := send_text ch1 (execution_error execution_id e) in
      (r, ch2, svc1, log)
  end.

(** [CodeExecutionRequest] of the REST endpoint. *)
Record CodeExecutionRequest := {
  code : string;
  language : string;
  timeout : option Z
}.

Inductive http_response :=
| CodeExecutionResponse (execution_id status output : string)
| HTTPException (status_code : Z) (detail : string).

(** [request.timeout or settings.max_execution_time]: [None] and [0] are
    false. *)
Definition timeout_or (request : CodeExecutionRequest)
    (max_execution_time : Z) : Z :=
  match timeout request with
  | Some t => if decide (t = 0%Z) then max_execution_time else t
  | None => max_execution_time
  end.

(** [execute_code]. The timeout is computed and bound to a local name that
    nothing reads afterwards. An [HTTPException] raised inside the [try] is
    caught by the [except Exception] clause like any other. *)
Definition execute_code (svc : E2B.E2BService) (request : CodeExecutionRequest)
    (execution_id : string) (max_execution_time : Z) (env : E2B.sandbox_env)
  : http_response * E2B.E2BService * list E2B.remote_call :=
  let attempt : result (string * E2B.E2BService * list E2B.remote_call) :=
    if negb (bool_decide (language request ∈ ["python"; "javascript"])) then
      Raise "400: Unsupported language"
    else
      let timeout := timeout_or request max_execution_time in
      let awaited :=
        if decide (language request = "python") then
          await (call_execute_python_code svc (code request) execution_id env)
        else
          await (call_execute_javascript_code svc (code request) execution_id env) in
      match awaited with
      | Raise e => Raise e
      | Ok (output_chunks, svc1, log) =>
          Ok (String.concat "" output_chunks, svc1, log)
      end in
  match attempt with
  | Ok (output, svc1, log) =>
      (CodeExecutionResponse execution_id "completed" output, svc1, log)
  | Raise e => (HTTPException 500 e, svc, [])
  end.

(** [settings.max_execution_time], by its default in [core/config.py]. *)
Definition max_execution_time : Z := 30.

Definition with_timeout (request : CodeExecutionRequest) (t : option Z)
  : CodeExecutionRequest :=
  {| code := code request; language := language request; timeout := t |}.

(** The shape of a well-ended stream of events: one terminal event, in
    last position, so that every other event comes strictly before it. *)
Definition one_terminal_last (events : list event) : Prop :=
  ∃ pre t, events = pre ++ [t] ∧ is_terminal t = true ∧
           Forall (λ e, is_terminal e = false) pre.

Definition terminal_events (events : list event) : list event :=
  filter (λ e, is_terminal e = true) events.

(** A request to run one line of Python. *)
Definition python_request : Message :=
  {[ "type" := "code_execution"; "code" := "print(1)"; "language" := "python" ]}.

(** The event a timeout would have to send. *)
Definition timed_out (execution_id : string) : event :=
  execution_error execution_id "execution timed out".

(** A REST request that asks for a timeout of 5 seconds. *)
Definition hasty_request : CodeExecutionRequest :=
  {| code := "print(1)"; language := "python"; timeout := Some 5%Z |}.

End Dispatch.

(** ** The rate gate ([app/utils/rate_limiter.py]) *)
Module Limiter.

(** Timestamps are readings of [time.time()] and [window_seconds] is in
    the same unit; the code only subtracts and compares them. *)
Record RateLimiter := {
  max_requests : Z;
  window_seconds : Z;
  requests : gmap string (list Z)
}.

Definition with_requests (self : RateLimiter) (m : gmap string (list Z))
  : RateLimiter :=
  {| max_requests := max_requests self;
     window_seconds := window_seconds self;
     requests := m |}.

Definition __init__ (max_requests window_seconds : Z) : RateLimiter :=
  {| max_requests := max_requests; window_seconds := window_seconds;
     requests := ∅ |}.

(** The module's global instance, [RateLimiter()]. *)
Definition rate_limiter : RateLimiter := __init__ 60 60.

(** [self.requests[identifier]] on a [defaultdict(list)]: a missing key
    reads as the empty list. *)
Definition recorded (self : RateLimiter) (identifier : string) : list Z :=
  default [] (requests self !! identifier).

(** The list comprehension that drops old requests. *)
Definition prune (window_start : Z) (times : list Z) : list Z :=
  filter (λ req_time, (window_start < req_time)%Z) times.

(** [is_allowed], with the reading of the clock as argument. *)
Definition is_allowed (self : RateLimiter) (identifier : string) (now : Z)
  : bool * RateLimiter :=
  let window_start := (now - window_seconds self)%Z in
  let kept := prune window_start (recorded self identifier) in
  if decide (Z.of_nat (length kept) < max_requests self)%Z then
    (true, with_requests self (<[identifier := kept ++ [now]]> (requests self)))
  else
    (false, with_requests self (<[identifier := kept]> (requests self))).

(** [get_remaining] *)
Definition get_remaining (self : RateLimiter) (identifier : string) (now : Z)
  : Z * RateLimiter :=
  let window_start := (now - window_seconds self)%Z in
  let kept := prune window_start (recorded self identifier) in
  (Z.max 0 (max_requests self - Z.of_nat (length kept)),
   with_requests self (<[identifier := kept]> (requests self))).

(** [reset] *)
Definition reset (self : RateLimiter) (identifier : string) : RateLimiter :=
  with_requests self (delete identifier (requests self)).

(** A history of calls of [is_allowed]: who asked, and when. The log keeps
    each call with its verdict, oldest first. *)
Definition serve_step (st : RateLimiter * list (string * Z * bool))
    (call : string * Z) : RateLimiter * list (string * Z * bool) :=
  let '(ok, self1) := is_allowed st.1 call.1 call.2 in
  (self1, st.2 ++ [(call.1, call.2, ok)]).

Definition serve (self : RateLimiter) (calls : list (string * Z))
  : RateLimiter * list (string * Z * bool) :=
  foldl serve_step (self, []) calls.

(** The timestamps of the admitted requests of one client in a log. *)
Definition admitted (identifier : string) (log : list (string * Z * bool))
  : list Z :=
  (λ entry, entry.1.2) <$>
    filter (λ entry, entry.1.1 = identifier ∧ entry.2 = true) log.

(** The verdicts of a log, oldest first. *)
Definition verdicts (log : list (string * Z * bool)) : list bool := log.*2.

(** The requests among [times] that fall in the window of length
    [window] ending at [t]. *)
Definition in_window (window t : Z) (times : list Z) : list Z :=
  filter (λ a, (t - window < a ∧ a ≤ t)%Z) times.

(** A history of calls on the limiter. *)
Inductive limiter_op :=
| IsAllowed (identifier : string) (now : Z)
| GetRemaining (identifier : string) (now : Z)
| Reset (identifier : string).

Definition limiter_step (self : RateLimiter) (op : limiter_op) : RateLimiter :=
  match op with
  | IsAllowed identifier now => (is_allowed self identifier now).2
  | GetRemaining identifier now => (get_remaining self identifier now).2
  | Reset identifier => reset self identifier
  end.

Definition limiter_run (self : RateLimiter) (ops : list limiter_op)
  : RateLimiter :=
  foldl limiter_step self ops.

(** The record of every client holds at most [max_requests] timestamps. *)
Definition record_bounded (self : RateLimiter) : Prop :=
  ∀ c, (Z.of_nat (length (recorded self c)) ≤ max_requests self)%Z.

(** The calls of one client in a history. *)
Definition calls_of (identifier : string) (calls : list (string * Z))
  : list (string * Z) :=
  filter (λ call, call.1 = identifier) calls.

End Limiter.

(** ** The concurrency gate ([AsyncRateLimiter] of [app/utils/rate_limiter.py]) *)
Module AsyncLimiter.

(** [AsyncRateLimiter]. [semaphore] is the internal counter of the
    [asyncio.Semaphore]: [acquire] takes a permit when the counter is
    positive and suspends the caller otherwise, [release] adds one permit
    and checks nothing (the checking variant is [BoundedSemaphore]). *)
Record AsyncRateLimiter := {
  semaphore : Z;
  active_connections : Z
}.

Definition __init__ (max_concurrent : Z) : AsyncRateLimiter :=
  {| semaphore := max_concurrent; active_connections := 0 |}.

(** The module's global instance, [AsyncRateLimiter()]. *)
Definition async_rate_limiter : AsyncRateLimiter := __init__ 100.

(** [acquire]; [None] when the caller is suspended. *)
Definition acquire (self : AsyncRateLimiter) : option AsyncRateLimiter :=
  if decide (0 < semaphore self)%Z then
    Some {| semaphore := semaphore self - 1;
            active_connections := active_connections self + 1 |}
  else None.

(** [release]; no statement of it can raise. *)
Definition release (self : AsyncRateLimiter) : result AsyncRateLimiter :=
  Ok {| semaphore := semaphore self + 1;
        active_connections := Z.max 0 (active_connections self - 1) |}.

(** Permits handed out and not yet returned, as the semaphore sees them. *)
Definition outstanding (max_concurrent : Z) (self : AsyncRateLimiter) : Z :=
  (max_concurrent - semaphore self)%Z.

(** A history of [__aenter__] and [__aexit__] calls ([async with]); the
    run stops with [None] at an [acquire] that suspends its caller. *)
Inductive gate_op := Enter | Exit.

Definition gate_step (self : AsyncRateLimiter) (op : gate_op)
  : option AsyncRateLimiter :=
  match op with
  | Enter => acquire self
  | Exit => match release self with Ok l => Some l | Raise _ => None end
  end.

Fixpoint gate_run (self : AsyncRateLimiter) (ops : list gate_op)
  : option AsyncRateLimiter :=
  match ops with
  | [] => Some self
  | op :: rest =>
      match gate_step self op with
      | Some l => gate_run l rest
      | None => None
      end
  end.

(** No prefix of the history exits more often than it entered, [held]
    slots being held at its start. *)
Fixpoint paired (held : nat) (ops : list gate_op) : bool :=
  match ops with
  | [] => true
  | Enter :: rest => paired (S held) rest
  | Exit :: rest =>
      match held with
      | O => false
      | S held' => paired held' rest
      end
  end.

End AsyncLimiter.

(** * Properties *)

(** ** Insertion-ordered dictionaries *)
Section PyDictFacts.
Context {V : Type}.
Implicit Types (k : string) (v : V) (d : pydict V).

Lemma dict_get_None k d : dict_get k d = None ↔ k ∉ dict_keys d.
Proof.
  induction d as [|[k' v] d IH]; simpl.
  - split; [intros _; apply not_elem_of_nil | done].
  - rewrite not_elem_of_cons. case_decide as Hk.
    + split; [done | intros [Hne _]; by subst].
    + rewrite IH. split; [by intros ? | by intros [_ ?]].
Qed.

Lemma dict_set_fresh k v d :
  dict_get k d = None → dict_set k v d = d ++ [(k, v)].
Proof.
  induction d as [|[k' v'] d IH]; simpl; [done|].
  case_decide; [done|]. intros Hget. by rewrite IH.
Qed.

Lemma dict_set_length k v d :
  length (dict_set k v d) =
  if dict_in k d then length d else S (length d).
Proof.
  unfold dict_in.
  induction d as [|[k' v'] d IH]; simpl; [done|].
  case_decide; simpl; [done|].
  rewrite IH. by destruct (dict_get k d).
Qed.

Lemma dict_set_length_le k v d : length (dict_set k v d) ≤ S (length d).
Proof. rewrite dict_set_length. destruct (dict_in k d); lia. Qed.

Lemma dict_del_length k d :
  length (dict_del k d) =
  if dict_in k d then pred (length d) else length d.
Proof.
  unfold dict_in.
  induction d as [|[k' v'] d IH]; simpl; [done|].
  case_decide; simpl; [done|].
  rewrite IH. destruct (dict_get k d) eqn:E; [|done].
  destruct d; [done | simpl; lia].
Qed.

Lemma dict_del_first k v d : dict_del k ((k, v) :: d) = d.
Proof. simpl. by rewrite decide_True. Qed.

Lemma dict_get_set_eq k v d : dict_get k (dict_set k v d) = Some v.
Proof.
  induction d as [|[k' v'] d IH]; simpl.
  - by rewrite decide_True.
  - case_decide as Hk; simpl.
    + by rewrite decide_True.
    + by rewrite decide_False.
Qed.

End PyDictFacts.

(** ** Dictionaries with distinct keys *)
Section PyDictKeys.
Context {V : Type}.
Implicit Types (k : string) (v : V) (d : pydict V).

Lemma dict_get_Some_elem k v d : dict_get k d = Some v → (k, v) ∈ d.
Proof.
  induction d as [|[k' v'] d IH]; simpl; [done|].
  case_decide as Hk.
  - intros [= <-]. subst. left.
  - intros Hget. right. by apply IH.
Qed.

Lemma dict_get_ne k k' v d :
  k ≠ k' → dict_get k (dict_set k' v d) = dict_get k d.
Proof.
  intros Hne. induction d as [|[k0 v0] d IH]; simpl.
  - by rewrite decide_False by done.
  - destruct (decide (k0 = k')) as [->|Hk0]; simpl.
    + by rewrite !decide_False by done.
    + by rewrite IH.
Qed.

Lemma dict_keys_set k v d :
  dict_keys (dict_set k v d)
  = if dict_in k d then dict_keys d else dict_keys d ++ [k].
Proof.
  unfold dict_in.
  induction d as [|[k' v'] d IH]; [done|].
  simpl dict_set. simpl dict_get. case_decide; [done|].
  change (dict_keys ((k', v') :: dict_set k v d))
    with (k' :: dict_keys (dict_set k v d)).
  rewrite IH. by destruct (dict_get k d).
Qed.

Lemma dict_keys_del k d x : x ∈ dict_keys (dict_del k d) → x ∈ dict_keys d.
Proof.
  unfold dict_keys. induction d as [|[k' v'] d IH]; simpl; [done|].
  case_decide; simpl.
  - intros Hx. by right.
  - intros [->|Hx]%elem_of_cons; [left | right; by apply IH].
Qed.

Lemma dict_del_distinct k d :
  NoDup (dict_keys d) →
  NoDup (dict_keys (dict_del k d)) ∧ k ∉ dict_keys (dict_del k d).
Proof.
  unfold dict_keys. induction d as [|[k' v'] d IH]; simpl.
  - intros _. split; [constructor | apply not_elem_of_nil].
  - intros [Hk' Hd]%NoDup_cons. case_decide as Hk; simpl.
    + subst. done.
    + destruct (IH Hd) as [Hnd Hnotin]. split.
      * apply NoDup_cons. split; [|done].
        intros Hin. apply Hk'. by apply (dict_keys_del k).
      * apply not_elem_of_cons. split; [congruence | done].
Qed.

Lemma dict_set_distinct k v d :
  NoDup (dict_keys d) → NoDup (dict_keys (dict_set k v d)).
Proof.
  intros Hd. rewrite dict_keys_set. unfold dict_in.
  destruct (dict_get k d) eqn:Hget; [done|].
  apply NoDup_app. split; [done|]. split; [|apply NoDup_singleton].
  intros x Hx ->%list_elem_of_singleton. by apply dict_get_None in Hget.
Qed.

Lemma dict_del_snoc k v d :
  dict_get k d = None → dict_del k (d ++ [(k, v)]) = d.
Proof.
  induction d as [|[k' v'] d IH]; simpl.
  - intros _. by rewrite decide_True.
  - case_decide; [done|]. intros Hget. by rewrite IH.
Qed.

Lemma dict_get_app_fresh k v d1 d2 :
  dict_get k d1 = None → dict_get k (d1 ++ (k, v) :: d2) = Some v.
Proof.
  induction d1 as [|[k' v'] d1 IH]; simpl.
  - intros _. by rewrite decide_True.
  - case_decide; [done|]. apply IH.
Qed.

Lemma dict_get_elem k v d :
  NoDup (dict_keys d) → (k, v) ∈ d → dict_get k d = Some v.
Proof.
  induction d as [|[k' v'] d IH]; intros Hnd Hin.
  - by apply elem_of_nil in Hin.
  - change (dict_keys ((k', v') :: d)) with (k' :: dict_keys d) in Hnd.
    apply NoDup_cons in Hnd as [Hk' Hnd]. simpl.
    apply elem_of_cons in Hin as [[= -> ->]|Hin].
    + by rewrite decide_True.
    + rewrite decide_False; [by apply IH|].
      intros ->. apply Hk'. unfold dict_keys.
      by apply (list_elem_of_fmap_2 fst _ (k, v)).
Qed.

Lemma dict_del_absent k d : dict_get k d = None → dict_del k d = d.
Proof.
  induction d as [|[k' v'] d IH]; simpl; [done|].
  case_decide; [done|]. intros Hget. by rewrite IH.
Qed.

Lemma dict_del_set k v d : dict_del k (dict_set k v d) = dict_del k d.
Proof.
  induction d as [|[k' v'] d IH]; simpl.
  - by rewrite decide_True.
  - case_decide as Hk; simpl.
    + by rewrite decide_True.
    + rewrite decide_False by done. by rewrite IH.
Qed.

Lemma dict_get_del_ne k k' d :
  k ≠ k' → dict_get k (dict_del k' d) = dict_get k d.
Proof.
  intros Hne. induction d as [|[k0 v0] d IH]; simpl; [done|].
  destruct (decide (k0 = k')) as [->|Hk0]; simpl.
  - by rewrite decide_False by done.
  - by rewrite IH.
Qed.

Lemma dict_get_del_eq k d :
  NoDup (dict_keys d) → dict_get k (dict_del k d) = None.
Proof.
  intros Hnd. apply dict_get_None. by apply dict_del_distinct.
Qed.

Lemma dict_del_length_le k d : length (dict_del k d) ≤ length d.
Proof. rewrite dict_del_length. destruct (dict_in k d); lia. Qed.

End PyDictKeys.

Lemma dict_keys_fmap {V W : Type} (g : string * V → string * W) (d : pydict V) :
  (∀ kv, (g kv).1 = kv.1) → dict_keys (g <$> d) = dict_keys d.
Proof.
  intros Hg. unfold dict_keys. rewrite <- list_fmap_compose.
  apply list_fmap_ext. intros i kv _. simpl. apply Hg.
Qed.

(** ** The session pool *)
Section SessionPool.
Import E2B.
Implicit Types (self : E2BService) (p : pool).

Lemma close_session_max self session_id close :
  max_sessions (_close_session self session_id close).1 = max_sessions self.
Proof.
  unfold _close_session.
  destruct (dict_get _ _); [destruct close|]; done.
Qed.

Lemma close_session_length self session_id close :
  length (active_sessions (_close_session self session_id close).1)
  ≤ length (active_sessions self).
Proof.
  unfold _close_session.
  destruct (dict_get _ _) eqn:Hget; [destruct close|]; simpl; try lia.
  rewrite dict_del_length. destruct (dict_in _ _); lia.
Qed.

(** Closing the oldest session of a non-empty pool, when [close()]
    returns, frees its slot. *)
Lemma close_oldest_ok self k s rest :
  active_sessions self = (k, s) :: rest →
  _close_session self k (Ok tt) = (with_sessions self rest, [SandboxClose s]).
Proof.
  intros Hd. unfold _close_session. rewrite Hd. simpl.
  by rewrite !decide_True.
Qed.

Lemma create_session_max self session_id evict_close create :
  max_sessions (_create_session self session_id evict_close create).1.2
  = max_sessions self.
Proof.
  unfold _create_session. case_decide.
  - destruct (dict_first _); [|done].
    pose proof (close_session_max self s evict_close) as Hm.
    destruct (_close_session _ _ _) as [self1 log]. by destruct create.
  - by destruct create.
Qed.

(** One [_create_session] keeps the pool within [max_sessions] as long as
    the [close()] of the evicted session does not raise. *)
Lemma create_session_bound self session_id create :
  length (active_sessions self) ≤ max_sessions self →
  length (active_sessions (_create_session self session_id (Ok tt) create).1.2)
  ≤ max_sessions self.
Proof.
  intros Hle. unfold _create_session. case_decide as Hfull.
  - destruct (active_sessions self) as [|[k s] rest] eqn:Hd; simpl; [by rewrite Hd|].
    rewrite (close_oldest_ok self k s rest Hd).
    assert (length rest < max_sessions self) by (simpl in Hle; lia).
    destruct create; simpl; [|lia].
    pose proof (dict_set_length_le session_id a rest). lia.
  - destruct create; simpl; [|lia].
    pose proof (dict_set_length_le session_id a (active_sessions self)). lia.
Qed.

Lemma initialize_max self evict_close create :
  max_sessions (initialize self evict_close create).1 = max_sessions self.
Proof.
  unfold initialize. destruct (is_available self); simpl; [|done].
  pose proof (create_session_max self "test" evict_close create) as Hm.
  by destruct (_create_session _ _ _ _) as [[[] self1] log].
Qed.

(** [initialize] keeps the pool within [max_sessions] under the same
    condition. *)
Lemma initialize_bound self create :
  length (active_sessions self) ≤ max_sessions self →
  length (active_sessions (initialize self (Ok tt) create).1)
  ≤ max_sessions self.
Proof.
  intros Hle. unfold initialize. destruct (is_available self); simpl; [|done].
  pose proof (create_session_bound self "test" create Hle) as Hb.
  by destruct (_create_session _ _ _ _) as [[[] self1] log].
Qed.

Lemma pool_step_max p op :
  max_sessions (service (pool_step p op)) = max_sessions (service p).
Proof.
  destruct op as [id ec cr|id cl|ec cr|cl]; simpl.
  - pose proof (create_session_max (service p) id ec cr) as Hm.
    destruct (_create_session _ _ _ _) as [[[] self1] log]; done.
  - apply close_session_max.
  - apply initialize_max.
  - done.
Qed.

(** With closes that return, every history of calls that do not overlap
    keeps the pool within its bound. *)
Lemma pool_run_bound ops p :
  evictions_succeed ops →
  live_sessions p ≤ max_sessions (service p) →
  live_sessions (pool_run p ops) ≤ max_sessions (service (pool_run p ops)).
Proof.
  unfold pool_run, live_sessions.
  revert p. induction ops as [|op ops IH]; intros p Hev Hle; simpl; [done|].
  apply Forall_cons in Hev as [Hop Hev]. apply IH; [done|].
  rewrite pool_step_max.
  destruct op as [id ec cr|id cl|ec cr|cl]; simpl.
  - subst ec.
    pose proof (create_session_bound (service p) id cr Hle) as Hb.
    destruct (_create_session _ _ _ _) as [[[] self1] log]; done.
  - pose proof (close_session_length (service p) id cl). lia.
  - subst ec. by apply initialize_bound.
  - lia.
Qed.

(** On a full pool, a new key and an eviction whose [close()] raises: the
    pool grows by one. *)
Lemma create_session_overflow self session_id k s rest e session :
  active_sessions self = (k, s) :: rest →
  max_sessions self ≤ length (active_sessions self) →
  dict_get session_id (active_sessions self) = None →
  length (active_sessions
            (_create_session self session_id (Raise e) (Ok session)).1.2)
  = S (length (active_sessions self)).
Proof.
  intros Hd Hfull Hfresh. unfold _create_session.
  rewrite decide_True by done. rewrite Hd at 1. simpl dict_first. cbv iota.
  unfold _close_session. rewrite Hd at 1. simpl dict_get.
  rewrite decide_True by done. simpl.
  rewrite dict_set_length. unfold dict_in. by rewrite Hfresh.
Qed.

(** The shutdown path frees every slot, also when a [close()] raises. *)
Lemma cleanup_frees_every_slot self close :
  active_sessions (cleanup self close).1 = [] ∧
  length (cleanup self close).2 = length (active_sessions self).
Proof. split; [done|]. unfold cleanup. simpl. by rewrite length_fmap. Qed.

Lemma full_pool_live : live_sessions full_pool = 10.
Proof. by vm_compute. Qed.

(** C1. The bound on live sessions is broken when the [close()] of the
    evicted session raises: [_close_session] then skips its [del], and
    [_create_session] goes on to insert the new session into a pool that
    is still full. Ten executions on a fresh service, then an eleventh
    whose eviction fails to close, leave eleven live sessions for a
    [max_sessions] of ten. *)
Theorem create_session_exceeds_max_when_close_raises :
  live_sessions full_pool = 10 ∧
  max_sessions (service full_pool) = 10 ∧
  live_sessions
    (pool_step full_pool (Acquire "e10" (Raise "sandbox unreachable") (Ok 10)))
  = 11.
Proof.
  split; [exact full_pool_live|].
  split; by vm_compute.
Qed.

(** C3, as stated, fails: with ten executions in flight the pool is full,
    every one of its sessions is executing, and the next
    [_create_session] still picks a victim, the session of the first
    execution. *)
Lemma eviction_selects_running_session :
  ¬ (∀ ops victim,
       eviction_victim (service (pool_run fresh_pool ops)) = Some victim →
       victim ∉ running (pool_run fresh_pool ops)).
Proof.
  intros Hclaim.
  apply (Hclaim (start_executions 10) "e0"); [by vm_compute|].
  apply (bool_decide_unpack _). by vm_compute.
Qed.

(** C3, amended. At capacity the victim is the first key of
    [active_sessions] in insertion order, whatever [running] holds; when
    its [close()] returns it is removed, and a session stored under a new
    key goes behind all others, so the first key is always the one
    inserted earliest. *)
Theorem eviction_is_first_inserted self session_id k s rest create :
  active_sessions self = (k, s) :: rest →
  max_sessions self ≤ length (active_sessions self) →
  eviction_victim self = Some k ∧
  _create_session self session_id (Ok tt) create =
    match create with
    | Ok session =>
        (Ok session, with_sessions self (dict_set session_id session rest),
         [SandboxClose s; SandboxCreate])
    | Raise e => (Raise e, with_sessions self rest, [SandboxClose s; SandboxCreate])
    end ∧
  (∀ session, dict_get session_id rest = None →
     dict_set session_id session rest = rest ++ [(session_id, session)]).
Proof.
  intros Hd Hfull. split; [|split].
  - unfold eviction_victim. rewrite decide_True by done. by rewrite Hd.
  - unfold _create_session. rewrite decide_True by done.
    rewrite Hd at 1. simpl dict_first. cbv iota.
    rewrite (close_oldest_ok self k s rest Hd). by destruct create.
  - intros session Hfresh. by apply dict_set_fresh.
Qed.

Lemma eviction_is_first_inserted_witness :
  eviction_victim (service full_pool) = Some "e0" ∧
  (_create_session (service full_pool) "e10" (Ok tt) (Ok 10)).1.1 = Ok 10.
Proof.
  pose proof (eviction_is_first_inserted (service full_pool) "e10" "e0" 0
    (tail (active_sessions (service full_pool))) (Ok 10)) as Hthm.
  destruct Hthm as (Hvictim & Hcreate & _).
  - by vm_compute.
  - vm_compute. lia.
  - split; [exact Hvictim | by rewrite Hcreate].
Defined.

End SessionPool.

(** ** The streaming generators *)
Section Streamer.
Import E2B.
Implicit Types (self : E2BService) (env : sandbox_env).

(** C9. Without an API key neither generator touches the pool or the
    sandbox API: each yields the one informational chunk and ends, with
    [active_sessions] as it was and no remote call made. *)
Theorem unavailable_service_yields_one_chunk self code execution_id env :
  is_available self = false →
  execute_python_code self code execution_id env
    = ([unavailable_chunk], self, []) ∧
  execute_javascript_code self code execution_id env
    = ([unavailable_chunk], self, []).
Proof.
  intros Hna.
  unfold execute_python_code, execute_javascript_code, execute_in_sandbox.
  by rewrite Hna.
Qed.

Lemma unavailable_service_yields_one_chunk_witness :
  is_available (__init__ None) = false ∧
  execute_python_code (__init__ None) "print(1)" "x1" slow_env
    = ([unavailable_chunk], __init__ None, []) ∧
  execute_javascript_code (__init__ None) "print(1)" "x1" slow_env
    = ([unavailable_chunk], __init__ None, []).
Proof.
  split; [reflexivity|].
  apply (unavailable_service_yields_one_chunk (__init__ None)). reflexivity.
Defined.

(** The empty key counts as no key. *)
Lemma empty_key_unavailable : is_available (__init__ (Some "")) = false.
Proof. reflexivity. Qed.

(** A failed [_create_session] never adds a binding. *)
Lemma create_session_failure self session_id evict_close e :
  0 < max_sessions self →
  let '(r, self1, log) := _create_session self session_id evict_close (Raise e) in
  r = Raise e ∧
  length (active_sessions self1) ≤ length (active_sessions self) ∧
  (length (active_sessions self) < max_sessions self → self1 = self) ∧
  last log = Some SandboxCreate.
Proof.
  intros Hmax. unfold _create_session. case_decide as Hfull.
  - destruct (active_sessions self) as [|[k s] rest] eqn:Hd; [simpl in Hfull; lia|].
    simpl dict_first. cbv iota.
    pose proof (close_session_length self k evict_close) as Hlen.
    destruct (_close_session self k evict_close) as [self1 log] eqn:Hclose.
    simpl in Hlen. rewrite Hd in Hlen.
    split; [done|]. split; [done|]. split; [lia|]. by rewrite last_snoc.
  - split; [done|]. split; [done|]. split; done.
Qed.

End Streamer.

(** ** The dispatcher *)
Section Dispatcher.
Import E2B Dispatch.
Implicit Types (ch : channel) (svc : E2BService) (env : sandbox_env)
  (message : Message).

Lemma send_text_sent ch e : sent (send_text ch e).2 = sent ch ++ [e].
Proof. unfold send_text. by destruct (remaining ch) as [[|n]|]. Qed.

Lemma send_text_open ch e :
  remaining ch = None →
  send_text ch e = (Ok tt, hand_over ch e true None).
Proof. intros Hopen. unfold send_text. by rewrite Hopen. Qed.

(** A send that raises raises what the transport gives, delivers nothing
    and leaves the channel closed to every later send. *)
Lemma send_text_raises ch e msg :
  (send_text ch e).1 = Raise msg →
  msg = failure ch ∧
  send_text ch e = (Raise (failure ch), hand_over ch e false (Some 0)).
Proof.
  unfold send_text. destruct (remaining ch) as [[|n]|]; simpl; try done.
  by intros [= <-].
Qed.

Lemma send_text_delivered ch e :
  delivered (send_text ch e).2
  = delivered ch ++ (if raised (send_text ch e).1 then [] else [e]).
Proof.
  unfold send_text. destruct (remaining ch) as [[|n]|]; simpl; [|done..].
  by rewrite app_nil_r.
Qed.

(** On a channel that stays open the relay loop forwards every chunk, in
    the order the generator yields them. *)
Lemma relay_open execution_id chunks ch :
  remaining ch = None →
  relay execution_id chunks ch =
    (Ok tt,
     {| sent := sent ch ++ (execution_output execution_id <$> chunks);
        delivered := delivered ch ++ (execution_output execution_id <$> chunks);
        remaining := None;
        failure := failure ch |}).
Proof.
  revert ch. induction chunks as [|chunk rest IH]; intros ch Hopen; simpl.
  - rewrite !app_nil_r. destruct ch; simpl in *; by subst.
  - rewrite send_text_open by done. rewrite IH by done. simpl.
    by rewrite <- !app_assoc.
Qed.

(** The relay loop followed by the completion message, on a channel that
    stays open: the chunks in order, then the one terminal event. *)
Lemma relayed_stream_ends_in_complete execution_id chunks ch :
  remaining ch = None →
  let out := send_text (relay execution_id chunks ch).2
               (execution_complete execution_id) in
  out.1 = Ok tt ∧
  delivered out.2
  = delivered ch ++ (execution_output execution_id <$> chunks)
    ++ [execution_complete execution_id] ∧
  one_terminal_last
    ((execution_output execution_id <$> chunks)
     ++ [execution_complete execution_id]).
Proof.
  intros Hopen. simpl. rewrite relay_open by done. simpl.
  split; [done|]. split; [by rewrite <- app_assoc|].
  eexists _, _. split; [done|]. split; [done|].
  apply Forall_fmap, Forall_forall. by intros chunk _.
Qed.

(** Awaiting what either generator function returns raises. *)
Lemma await_generator_raises svc code execution_id env :
  await (call_execute_python_code svc code execution_id env)
    = Raise "object async_generator can't be used in 'await' expression" ∧
  await (call_execute_javascript_code svc code execution_id env)
    = Raise "object async_generator can't be used in 'await' expression".
Proof. by split. Qed.

(** The [try] block never completes: either the first send fails, or the
    language is refused, or the [await] of the generator object raises.
    In every case the service has not been touched. The exception is the
    transport's when the first send failed; otherwise it is one the
    handler's own code raised, and not a time-out. *)
Lemma handle_code_execution_try_raises ch svc message execution_id env :
  ∃ e, (raised (send_text ch (execution_start execution_id)).1 = false →
        e ≠ "execution timed out") ∧
       handle_code_execution_try ch svc message execution_id env
       = (Raise e, (send_text ch (execution_start execution_id)).2, svc, []).
Proof.
  unfold handle_code_execution_try.
  destruct (send_text ch (execution_start execution_id)) as [[[]|e0] ch1] eqn:Hsend.
  - repeat case_decide; simpl; eexists; (split; [|reflexivity]); done.
  - exists e0. by split.
Qed.

Lemma handle_code_execution_unfold ch svc message execution_id env :
  ∃ e, (raised (send_text ch (execution_start execution_id)).1 = false →
        e ≠ "execution timed out") ∧
       let ch1 := (send_text ch (execution_start execution_id)).2 in
       let out := send_text ch1 (execution_error execution_id e) in
       handle_code_execution ch svc message execution_id env
       = (out.1, out.2, svc, []).
Proof.
  destruct (handle_code_execution_try_raises ch svc message execution_id env)
    as (e & Hne & Htry).
  exists e. split; [done|]. simpl.
  unfold handle_code_execution. rewrite Htry.
  by destruct (send_text _ (execution_error execution_id e)).
Qed.

(** C2. Every run of [handle_code_execution] hands the channel a finite
    sequence of events of its execution id that ends in its only terminal
    event, so that any output event precedes it; on a channel that stays
    open this is the sequence the client receives. *)
Theorem execution_events_have_one_terminal_last
    ch svc message execution_id env :
  let '(r, ch1, _, _) :=
    handle_code_execution ch svc message execution_id env in
  ∃ events,
    sent ch1 = sent ch ++ events ∧
    Forall (λ e, event_id e = execution_id) events ∧
    one_terminal_last events ∧
    length (terminal_events events) = 1 ∧
    (remaining ch = None →
       r = Ok tt ∧ delivered ch1 = delivered ch ++ events).
Proof.
  destruct (handle_code_execution_unfold ch svc message execution_id env)
    as (e & _ & Hrun).
  simpl in Hrun. rewrite Hrun.
  exists [execution_start execution_id; execution_error execution_id e].
  split; [|split; [|split; [|split]]].
  - rewrite !send_text_sent. by rewrite <- app_assoc.
  - by repeat constructor.
  - exists [execution_start execution_id], (execution_error execution_id e).
    split; [done|]. split; [done|]. by repeat constructor.
  - reflexivity.
  - intros Hopen. rewrite (send_text_open ch) by done. simpl.
    by rewrite <- !app_assoc.
Qed.

(** What a client on an open channel receives for a Python request. *)
Lemma python_request_delivers_start_then_error :
  delivered
    (handle_code_execution open_channel (E2B.__init__ (Some "e2b_test_key"))
       python_request "x1" slow_env).1.1.2
  = [execution_start "x1";
     execution_error "x1"
       "object async_generator can't be used in 'await' expression"].
Proof. reflexivity. Qed.

(** The handler never delivers the time-out event, whatever the channel,
    the request and the sandbox do: what it delivers is the start message
    and, if the client is still there, the error of its own [try]
    block. *)
Lemma timed_out_is_never_delivered ch svc message execution_id env :
  ∃ events,
    delivered (handle_code_execution ch svc message execution_id env).1.1.2
      = delivered ch ++ events ∧
    timed_out execution_id ∉ events.
Proof.
  destruct (handle_code_execution_unfold ch svc message execution_id env)
    as (e & Hne & Hrun).
  simpl in Hrun. rewrite Hrun. simpl.
  rewrite send_text_delivered.
  destruct (send_text ch (execution_start execution_id)) as [r ch1] eqn:Hstart.
  simpl in *.
  assert (delivered ch1
          = delivered ch ++ (if raised r then [] else [execution_start execution_id]))
    as Hd1.
  { pose proof (send_text_delivered ch (execution_start execution_id)) as Hd.
    by rewrite Hstart in Hd. }
  rewrite Hd1, <- app_assoc. eexists. split; [done|].
  destruct r as [[]|e0]; simpl.
  - specialize (Hne eq_refl).
    destruct (raised (send_text ch1 (execution_error execution_id e)).1); simpl.
    + apply not_elem_of_cons. split; [done | apply not_elem_of_nil].
    + unfold timed_out. rewrite !not_elem_of_cons.
      split; [done|]. split; [congruence | apply not_elem_of_nil].
  - pose proof (send_text_raises ch (execution_start execution_id) e0) as Hr.
    rewrite Hstart in Hr. destruct (Hr eq_refl) as [_ [= _ ->]].
    unfold send_text. simpl. apply not_elem_of_nil.
Qed.

(** The timeout does not reach the response of [execute_code]. *)
Lemma execute_code_ignores_timeout svc request execution_id env
    (t : option Z) (limit limit' : Z) :
  execute_code svc (with_timeout request t) execution_id limit env
  = execute_code svc request execution_id limit' env.
Proof.
  unfold execute_code, with_timeout. simpl.
  destruct (bool_decide _); simpl; [|done].
  by case_decide.
Qed.

(** C4. No time-out is applied. [execute_code] computes the timeout, 5
    seconds for [hasty_request], and never uses it; the generators read
    no clock. The process of [slow_env] ends after 31 seconds, past the
    5 seconds requested and past the 30 seconds of [max_execution_time]:
    the generator goes on to the end of the stream, yields the line and
    closes the sandbox, and yields no error, as it does however long the
    process takes; the handler delivers the start message and the error
    of its own [await], not a time-out; the REST endpoint answers the
    same for every timeout. *)
Theorem timeout_is_computed_but_never_applied :
  let svc := E2B.__init__ (Some "e2b_test_key") in
  timeout_or hasty_request max_execution_time = 5%Z ∧
  (timeout_or hasty_request max_execution_time < elapsed slow_process)%Z ∧
  (max_execution_time < elapsed slow_process)%Z ∧
  execute_python_code svc (code hasty_request) "x1" slow_env
    = (["tick" +:+ nl], svc,
       [SandboxCreate; ProcessStart 7 Python3; SandboxClose 7]) ∧
  (∀ secs : Z,
     execute_python_code svc (code hasty_request) "x1" (with_elapsed slow_env secs)
     = execute_python_code svc (code hasty_request) "x1" slow_env) ∧
  delivered
    (handle_code_execution open_channel svc python_request "x1" slow_env).1.1.2
    = [execution_start "x1";
       execution_error "x1"
         "object async_generator can't be used in 'await' expression"] ∧
  (∀ (t : option Z) (limit : Z),
     execute_code svc (with_timeout hasty_request t) "x1" limit slow_env
     = (HTTPException 500
          "object async_generator can't be used in 'await' expression",
        svc, [])).
Proof.
  split; [reflexivity|]. split; [reflexivity|]. split; [reflexivity|].
  split; [by vm_compute|]. split; [by intros secs|]. split; [reflexivity|].
  intros t limit.
  by rewrite (execute_code_ignores_timeout _ _ _ _ t limit max_execution_time).
Qed.

(** C5, as stated, fails: a failed creation on a full pool leaves one
    session less, since the oldest session is evicted before the sandbox
    API is asked for a new one. *)
Lemma failed_creation_at_capacity_shrinks_pool :
  ¬ (∀ self session_id evict_close e,
       let '(r, self1, _) :=
         _create_session self session_id evict_close (Raise e) in
       r = Raise e ∧
       length (active_sessions self1) = length (active_sessions self)).
Proof.
  intros Hclaim.
  specialize (Hclaim (service full_pool) "e10" (Ok tt) "quota exceeded").
  vm_compute in Hclaim. destruct Hclaim as [_ Hlen]. discriminate Hlen.
Qed.

(** C5, amended. A failed creation is raised to the caller of
    [_create_session] and adds no binding: the pool never grows, and it is
    left as it was unless it was full. The generator turns the failure
    into one error chunk and, having no session, closes none; the handler
    sends exactly one [execution_error] for the request and leaves the
    service alone. *)
Theorem failed_creation_consumes_no_slot
    (i : interpreter) svc ch code message execution_id env (e : exn) :
  0 < max_sessions svc →
  create env = Raise e →
  let '(r, svc1, log) :=
    _create_session svc execution_id (evict_close env) (Raise e) in
  r = Raise e ∧
  length (active_sessions svc1) ≤ length (active_sessions svc) ∧
  (length (active_sessions svc) < max_sessions svc → svc1 = svc) ∧
  (is_available svc = true →
     execute_in_sandbox i svc code execution_id env
       = ([error_chunk e], svc1, log)) ∧
  let '(_, ch1, svc2, calls) :=
    handle_code_execution ch svc message execution_id env in
  svc2 = svc ∧ calls = [] ∧
  ∃ msg, filter (λ ev, is_error ev = true) (sent ch1)
         = filter (λ ev, is_error ev = true) (sent ch)
           ++ [execution_error execution_id msg].
Proof.
  intros Hmax Hcreate.
  pose proof (create_session_failure svc execution_id (evict_close env) e Hmax)
    as Hfail.
  destruct (_create_session svc execution_id (evict_close env) (Raise e))
    as [[r svc1] log] eqn:Hcs.
  destruct Hfail as (Hr & Hlen & Hsame & _).
  split; [done|]. split; [done|]. split; [done|]. split.
  - intros Hav. unfold execute_in_sandbox. rewrite Hav, Hcreate, Hcs. simpl.
    by rewrite Hr.
  - destruct (handle_code_execution_unfold ch svc message execution_id env)
      as (msg & _ & Hrun).
    simpl in Hrun. rewrite Hrun.
    split; [done|]. split; [done|]. exists msg.
    rewrite !send_text_sent. rewrite !filter_app. simpl.
    rewrite filter_cons_False by done. rewrite filter_cons_True by done.
    rewrite filter_nil. by rewrite app_nil_r.
Qed.

Lemma failed_creation_consumes_no_slot_witness :
  let svc := E2B.__init__ (Some "e2b_test_key") in
  let env := failing_env "quota exceeded" in
  0 < max_sessions svc ∧
  create env = Raise "quota exceeded" ∧
  execute_in_sandbox Python3 svc "print(1)" "x1" env
    = ([error_chunk "quota exceeded"], svc, [SandboxCreate]).
Proof.
  pose proof (failed_creation_consumes_no_slot Python3
    (E2B.__init__ (Some "e2b_test_key")) open_channel "print(1)" python_request
    "x1" (failing_env "quota exceeded") "quota exceeded") as Hthm.
  simpl. split; [lia|]. split; [reflexivity|].
  specialize (Hthm ltac:(simpl; lia) eq_refl).
  simpl in Hthm. destruct Hthm as (_ & _ & _ & Hgen & _).
  exact (Hgen eq_refl).
Defined.

End Dispatcher.

(** ** The connection registry *)
Section Registry.
Import WS.
Implicit Types (self : WebSocketManager) (websocket old : WebSocket).

(** C6, as stated, fails: a second [connect] of a known client takes the
    registry entry over, but the only call it makes is [accept] on the new
    channel; the superseded channel is never closed. *)
Lemma reconnect_leaves_superseded_channel_open :
  ¬ (∀ self websocket client_id old,
       dict_get client_id (active_connections self) = Some old →
       let '(_, self1, calls) := connect self websocket client_id (Ok tt) in
       dict_get client_id (active_connections self1) = Some websocket ∧
       ∃ code reason, WsClose old code reason ∈ calls).
Proof.
  intros Hclaim.
  specialize (Hclaim one_client 2 "alice" 1 eq_refl).
  unfold connect in Hclaim. rewrite decide_False in Hclaim.
  - destruct Hclaim as (_ & code & reason & Hin).
    apply list_elem_of_singleton in Hin. discriminate Hin.
  - unfold one_client. simpl. lia.
Qed.

(** C6, amended. Below capacity, and when the handshake succeeds, the new
    channel replaces the registered one and the number of connections
    stays the same; [connect] calls [accept] on the new channel and
    nothing on the old one. At capacity the new channel is closed with
    code 1008 and the registry is left as it was. *)
Theorem reconnect_replaces_without_closing self websocket client_id old :
  dict_get client_id (active_connections self) = Some old →
  (length (active_connections self) < max_connections self →
     let '(r, self1, calls) := connect self websocket client_id (Ok tt) in
     r = Ok tt ∧
     dict_get client_id (active_connections self1) = Some websocket ∧
     (∀ other, other ≠ client_id →
        dict_get other (active_connections self1)
        = dict_get other (active_connections self)) ∧
     get_connection_count self1 = get_connection_count self ∧
     calls = [WsAccept websocket]) ∧
  (max_connections self ≤ length (active_connections self) →
     connect self websocket client_id (Ok tt)
     = (Ok tt, self, [WsClose websocket 1008 "Maximum connections reached"])).
Proof.
  intros Hold. split; intros Hsize; unfold connect.
  - rewrite decide_False by lia. simpl.
    split; [done|]. split; [apply dict_get_set_eq|].
    split; [intros other Hne; by apply dict_get_ne|].
    split; [|done].
    unfold get_connection_count. simpl. rewrite dict_set_length.
    unfold dict_in. by rewrite Hold.
  - by rewrite decide_True by lia.
Qed.

Lemma reconnect_replaces_without_closing_witness :
  dict_get "alice" (active_connections one_client) = Some 1 ∧
  length (active_connections one_client) < max_connections one_client ∧
  dict_get "alice" (active_connections (connect one_client 2 "alice" (Ok tt)).1.2)
    = Some 2 ∧
  (connect one_client 2 "alice" (Ok tt)).2 = [WsAccept 2].
Proof.
  assert (dict_get "alice" (active_connections one_client) = Some 1) as Hold
    by reflexivity.
  assert (length (active_connections one_client) < max_connections one_client)
    as Hsize by (unfold one_client; simpl; lia).
  split; [exact Hold|]. split; [exact Hsize|].
  destruct (reconnect_replaces_without_closing one_client 2 "alice" 1 Hold)
    as [Hbelow _].
  specialize (Hbelow Hsize).
  destruct (connect one_client 2 "alice" (Ok tt)) as [[r self1] calls].
  destruct Hbelow as (_ & Hnew & _ & _ & Hcalls). by split.
Defined.

End Registry.

(** ** The sliding-window rate check *)
Section SlidingWindow.
Import Limiter.
Local Open Scope Z_scope.
Implicit Types (self : RateLimiter) (c : string) (now t : Z) (times : list Z).

Lemma prune_prune ws ws' times :
  ws ≤ ws' → prune ws' (prune ws times) = prune ws' times.
Proof. intros Hle. apply list_filter_filter_l. intros x. lia. Qed.

Lemma prune_app ws times1 times2 :
  prune ws (times1 ++ times2) = prune ws times1 ++ prune ws times2.
Proof. apply filter_app. Qed.

Lemma prune_all ws times : (∀ a, a ∈ times → ws < a) → prune ws times = times.
Proof.
  induction times as [|a times IH]; intros Hall; [done|].
  unfold prune in *. rewrite filter_cons_True by (apply Hall; left).
  rewrite IH; [done|]. intros b Hb. apply Hall. by right.
Qed.

Lemma prune_none ws times : (∀ a, a ∈ times → a ≤ ws) → prune ws times = [].
Proof.
  induction times as [|a times IH]; intros Hall; [done|].
  unfold prune in *.
  rewrite filter_cons_False by (specialize (Hall a ltac:(left)); lia).
  apply IH. intros b Hb. apply Hall. by right.
Qed.

Lemma in_window_le_prune window t times :
  (length (in_window window t times) ≤ length (prune (t - window) times))%nat.
Proof.
  unfold in_window, prune.
  induction times as [|a times IH]; [done|].
  rewrite !filter_cons. repeat case_decide; simpl; lia.
Qed.

Lemma recorded_insert self c times m :
  recorded (with_requests self (<[c := times]> m)) c = times.
Proof. unfold recorded. simpl. by rewrite lookup_insert_eq. Qed.

Lemma recorded_insert_ne self c c' times :
  c ≠ c' →
  recorded (with_requests self (<[c := times]> (requests self))) c'
  = recorded self c'.
Proof. intros Hne. unfold recorded. simpl. by rewrite lookup_insert_ne. Qed.

(** [is_allowed] in one equation: the verdict compares the number of
    requests still in the window with [max_requests]; the record of the
    client becomes the pruned list, followed by [now] when admitted. *)
Lemma is_allowed_spec self c now :
  let kept := prune (now - window_seconds self) (recorded self c) in
  let ok := bool_decide (Z.of_nat (length kept) < max_requests self) in
  is_allowed self c now =
    (ok, with_requests self
           (<[c := kept ++ (if ok then [now] else [])]> (requests self))).
Proof.
  simpl. unfold is_allowed. case_decide as Hlt.
  - by rewrite bool_decide_true.
  - rewrite bool_decide_false by done. by rewrite app_nil_r.
Qed.

Lemma serve_snoc self calls call :
  serve self (calls ++ [call]) = serve_step (serve self calls) call.
Proof. unfold serve. by rewrite foldl_snoc. Qed.

Lemma serve_from self log calls :
  foldl serve_step (self, log) calls
  = ((serve self calls).1, log ++ (serve self calls).2).
Proof.
  revert self log. induction calls as [|call calls IH] using rev_ind;
    intros self log.
  - unfold serve. simpl. by rewrite app_nil_r.
  - rewrite serve_snoc, foldl_snoc, IH. unfold serve_step. simpl.
    destruct (is_allowed _ _ _) as [ok self1]. simpl. by rewrite app_assoc.
Qed.

Lemma serve_cons self c now calls :
  serve self ((c, now) :: calls) =
    let out := is_allowed self c now in
    ((serve out.2 calls).1, (c, now, out.1) :: (serve out.2 calls).2).
Proof.
  unfold serve at 1. simpl. unfold serve_step at 2. simpl.
  destruct (is_allowed self c now) as [ok self1]. simpl.
  by rewrite serve_from.
Qed.

Lemma admitted_snoc c log c0 now ok :
  admitted c (log ++ [(c0, now, ok)]) =
  admitted c log ++ (if decide (c0 = c ∧ ok = true) then [now] else []).
Proof.
  unfold admitted. rewrite filter_app, fmap_app. f_equal.
  rewrite filter_cons. simpl. by case_decide.
Qed.

Lemma serve_parameters self calls :
  max_requests (serve self calls).1 = max_requests self ∧
  window_seconds (serve self calls).1 = window_seconds self.
Proof.
  induction calls as [|[c now] calls IH] using rev_ind; [done|].
  rewrite serve_snoc. unfold serve_step. simpl.
  rewrite is_allowed_spec. simpl. done.
Qed.

(** The invariant of a history with a clock that never runs backwards:
    as far as any later check can tell, the record of a client is the
    list of its admitted requests, and no window holds more than
    [max_requests] of them. *)
Lemma serve_invariant self calls c :
  0 ≤ max_requests self →
  requests self = ∅ →
  StronglySorted Z.le (calls.*2) →
  let st := serve self calls in
  (∀ t, (∀ a, a ∈ calls.*2 → a ≤ t) →
        prune (t - window_seconds self) (admitted c st.2)
        = prune (t - window_seconds self) (recorded st.1 c)) ∧
  (∀ t, Z.of_nat (length (in_window (window_seconds self) t (admitted c st.2)))
        ≤ max_requests self).
Proof.
  intros HM Hfresh. simpl.
  induction calls as [|[c0 now] calls IH] using rev_ind; intros Hsorted.
  { unfold serve, recorded. simpl. rewrite Hfresh, lookup_empty. simpl.
    split; [done | intros; lia]. }
  rewrite fmap_app in Hsorted. simpl in Hsorted.
  apply StronglySorted_app in Hsorted as (Hbefore & Hsorted & _).
  destruct (IH Hsorted) as [IHrec IHwin]. clear IH.
  assert (∀ a, a ∈ calls.*2 → a ≤ now) as Hnow.
  { intros a Ha. apply (Hbefore a now Ha). by left. }
  destruct (serve_parameters self calls) as [HMs HWs].
  rewrite serve_snoc. unfold serve_step.
  destruct (serve self calls) as [self0 log] eqn:Hserve. simpl in *.
  rewrite is_allowed_spec. simpl. rewrite HMs, HWs.
  set (kept := prune (now - window_seconds self) (recorded self0 c0)).
  set (ok := bool_decide (Z.of_nat (length kept) < max_requests self)).
  rewrite admitted_snoc.
  assert (∀ t, (∀ a, a ∈ (calls ++ [(c0, now)]).*2 → a ≤ t) →
            now ≤ t ∧ ∀ a, a ∈ calls.*2 → a ≤ t) as Hupper.
  { intros t Ht. rewrite fmap_app in Ht. simpl in Ht. split.
    - apply Ht. apply elem_of_app. right. by left.
    - intros a Ha. apply Ht. apply elem_of_app. by left. }
  destruct (decide (c0 = c)) as [->|Hne].
  - (* the call is one of [c] *)
    rewrite recorded_insert.
    assert (∀ t, now ≤ t → (∀ a, a ∈ calls.*2 → a ≤ t) →
              prune (t - window_seconds self)
                (admitted c log ++ (if decide (c = c ∧ ok = true) then [now] else []))
              = prune (t - window_seconds self)
                  (kept ++ (if ok then [now] else []))) as Hrec.
    { intros t Hle Ht. rewrite !prune_app. f_equal.
      - unfold kept. rewrite prune_prune by lia. by apply IHrec.
      - destruct ok; [by rewrite decide_True|].
        by rewrite decide_False by (by intros [_ ?]). }
    split.
    + intros t Ht. destruct (Hupper t Ht) as [Hle Hrest]. by apply Hrec.
    + intros t. unfold ok in *. clear ok. case_bool_decide as Hok.
      2:{ rewrite decide_False by (by intros [_ ?]). rewrite app_nil_r. apply IHwin. }
      rewrite decide_True by done.
      destruct (decide (now ≤ t)) as [Hle|Hgt].
      * etransitivity; [apply inj_le, in_window_le_prune|].
        specialize (Hrec t Hle). rewrite decide_True in Hrec by done.
        rewrite Hrec by (intros a Ha; specialize (Hnow a Ha); lia).
        etransitivity; [apply inj_le, length_filter|].
        rewrite length_app. simpl. lia.
      * unfold in_window. rewrite filter_app.
        rewrite (filter_cons_False _ now) by lia.
        rewrite filter_nil, app_nil_r. apply IHwin.
  - (* the call is one of another client *)
    rewrite decide_False by (by intros [? _]). rewrite app_nil_r.
    rewrite recorded_insert_ne by done.
    split; [|done]. intros t Ht. apply IHrec. by apply Hupper.
Qed.

(** A burst of one client whose requests all lie less than a window
    apart: requests are admitted until the record is full, and the
    request after that is rejected. *)
Lemma burst_verdicts self c times :
  (∀ r b, r ∈ recorded self c → b ∈ times → b - window_seconds self < r) →
  (∀ a b, a ∈ times → b ∈ times → b - window_seconds self < a) →
  Z.of_nat (length (recorded self c) + length times) = max_requests self + 1 →
  times ≠ [] →
  verdicts (serve self ((λ now, (c, now)) <$> times)).2
  = replicate (length times - 1) true ++ [false].
Proof.
  revert self. induction times as [|a rest IH]; intros self Hold Hnear Hlen Hne;
    [done|].
  simpl fmap. rewrite serve_cons. simpl.
  rewrite is_allowed_spec. simpl.
  rewrite prune_all by (intros r Hr; apply Hold; [done | by left]).
  destruct rest as [|b rest].
  - rewrite bool_decide_false by (simpl in Hlen; lia). done.
  - rewrite bool_decide_true by (simpl in Hlen; lia).
    unfold verdicts in *. simpl fmap at 1.
    rewrite Nat.sub_0_r. simpl replicate. simpl app. f_equal.
    rewrite IH.
    + simpl. by rewrite Nat.sub_0_r.
    + simpl. rewrite recorded_insert. intros r b' Hr Hb'.
      apply elem_of_app in Hr as [Hr|Hr].
      * apply Hold; [done | by right].
      * apply list_elem_of_singleton in Hr as ->.
        apply Hnear; [by left | by right].
    + intros a' b' Ha' Hb'. apply Hnear; by right.
    + simpl. rewrite recorded_insert, length_app. simpl in *. lia.
    + done.
Qed.

(** After a full window without a request, the record is pruned to
    nothing and the request is admitted. *)
Lemma admitted_after_idle_window self c now :
  0 < max_requests self →
  (∀ a, a ∈ recorded self c → a + window_seconds self ≤ now) →
  (is_allowed self c now).1 = true.
Proof.
  intros HM Hidle. rewrite is_allowed_spec. simpl.
  rewrite prune_none by (intros a Ha; specialize (Hidle a Ha); lia).
  by rewrite bool_decide_true.
Qed.

(** C7. A limiter with a positive [max_requests] and a clock that never
    runs backwards: (1) over any history, every window of
    [window_seconds] holds at most [max_requests] admitted requests of a
    client; (2) of [max_requests + 1] requests of a client whose
    earlier record has expired, all less than a window apart, the first
    [max_requests] are admitted and the last is rejected; (3) once a full
    window has passed since the last recorded request, the client is
    admitted again. *)
Theorem sliding_window_admits_at_most_max (M W : Z) :
  0 < M →
  (∀ calls c t,
     StronglySorted Z.le (calls.*2) →
     Z.of_nat (length (in_window W t (admitted c (serve (__init__ M W) calls).2)))
     ≤ M) ∧
  (∀ reqs c times,
     let self := {| max_requests := M; window_seconds := W; requests := reqs |} in
     (∀ r a, r ∈ recorded self c → a ∈ times → r + W ≤ a) →
     Z.of_nat (length times) = M + 1 →
     (∀ a b, a ∈ times → b ∈ times → b - W < a) →
     verdicts (serve self ((λ now, (c, now)) <$> times)).2
     = replicate (Z.to_nat M) true ++ [false]) ∧
  (∀ reqs c now,
     let self := {| max_requests := M; window_seconds := W; requests := reqs |} in
     (∀ a, a ∈ recorded self c → a + W ≤ now) →
     (is_allowed self c now).1 = true).
Proof.
  intros HM. split; [|split].
  - intros calls c t Hsorted.
    destruct (serve_invariant (__init__ M W) calls c) as [_ Hwin];
      [simpl; lia | done | done |].
    apply Hwin.
  - intros reqs c times self Hexpired Hlen Hnear.
    destruct times as [|a [|b rest]]; [simpl in Hlen; lia..|].
    simpl fmap. rewrite serve_cons. simpl.
    rewrite is_allowed_spec. simpl.
    rewrite prune_none
      by (intros r Hr; specialize (Hexpired r a Hr ltac:(left)); lia).
    rewrite bool_decide_true by (simpl; lia). simpl app.
    unfold verdicts. simpl fmap at 1.
    replace (Z.to_nat M) with (S (length rest)) by (simpl in Hlen; lia).
    simpl replicate. simpl app. f_equal.
    pose proof (burst_verdicts
      (with_requests self (<[c := [a]]> reqs)) c (b :: rest)) as Hburst.
    unfold verdicts in Hburst. simpl in Hburst. rewrite Nat.sub_0_r in Hburst.
    apply Hburst.
    + rewrite recorded_insert. intros r b' Hr Hb'.
      apply list_elem_of_singleton in Hr as ->.
      apply Hnear; [by left | by right].
    + intros a' b' Ha' Hb'. apply Hnear; by right.
    + rewrite recorded_insert. simpl in *. lia.
    + done.
  - intros reqs c now self Hidle.
    by apply admitted_after_idle_window.
Qed.

Lemma sliding_window_admits_at_most_max_witness :
  0 < 2 ∧
  verdicts (serve (__init__ 2 60) [("alice", 0); ("alice", 10); ("alice", 20)]).2
  = [true; true; false] ∧
  (is_allowed (__init__ 2 60) "alice" 80).1 = true.
Proof.
  destruct (sliding_window_admits_at_most_max 2 60 ltac:(lia))
    as (_ & Hburst & Hidle).
  split; [lia|]. split.
  - apply (Hburst ∅ "alice" [0; 10; 20]).
    + unfold recorded. simpl. rewrite lookup_empty. simpl.
      intros r a Hr. by apply elem_of_nil in Hr.
    + reflexivity.
    + intros a b Ha Hb.
      repeat (apply elem_of_cons in Ha as [->|Ha]);
        repeat (apply elem_of_cons in Hb as [->|Hb]);
        try lia; by apply elem_of_nil in Ha || by apply elem_of_nil in Hb.
  - apply (Hidle ∅ "alice" 80).
    unfold recorded. simpl. rewrite lookup_empty. simpl.
    intros a Ha. by apply elem_of_nil in Ha.
Defined.

(** C10. [is_allowed] appends [now] to the record of the client only
    when it admits the request. A rejected request leaves the pruned
    record behind and nothing else: other clients are untouched, and any
    later check of the same client gives exactly the result it would have
    given had the rejected request never been made. *)
Theorem rejected_request_consumes_no_quota self c now :
  let '(ok, self1) := is_allowed self c now in
  recorded self1 c
  = prune (now - window_seconds self) (recorded self c)
    ++ (if ok then [now] else []) ∧
  (∀ other, other ≠ c → requests self1 !! other = requests self !! other) ∧
  (ok = false →
     recorded self1 c = prune (now - window_seconds self) (recorded self c) ∧
     ∀ now', now ≤ now' → is_allowed self1 c now' = is_allowed self c now').
Proof.
  rewrite is_allowed_spec. simpl.
  set (kept := prune (now - window_seconds self) (recorded self c)).
  split; [by rewrite recorded_insert|].
  split; [intros other Hne; by rewrite lookup_insert_ne|].
  intros Hok. rewrite Hok, app_nil_r.
  split; [by rewrite recorded_insert|].
  intros now' Hle. rewrite !is_allowed_spec. simpl.
  rewrite recorded_insert. unfold kept.
  rewrite prune_prune by lia.
  unfold with_requests. simpl. by rewrite insert_insert_eq.
Qed.

(** A full record, a rejected request, and the record afterwards. *)
Lemma rejected_request_example :
  let self :=
    {| max_requests := 1; window_seconds := 60;
       requests := {[ "alice" := [100] ]} |} in
  (is_allowed self "alice" 110).1 = false ∧
  recorded (is_allowed self "alice" 110).2 "alice" = [100].
Proof.
  simpl. rewrite is_allowed_spec. simpl.
  unfold recorded. simpl. rewrite lookup_singleton_eq. simpl.
  split; [reflexivity|]. by rewrite lookup_insert_eq.
Qed.

End SlidingWindow.

(** ** The concurrency gate *)
Section ConcurrencyGate.
Import AsyncLimiter.
Local Open Scope Z_scope.
Implicit Types (self : AsyncRateLimiter).

(** C8, as stated, fails: after one [acquire], a second [release] is
    accepted like the first, and it leaves the semaphore with one permit
    more than the limiter was built with. *)
Lemma double_release_passes_silently :
  ¬ (∀ l1 l2,
       acquire async_rate_limiter = Some l1 →
       release l1 = Ok l2 →
       (∃ e, release l2 = Raise e) ∧
       (∀ l3, release l2 = Ok l3 → 0 ≤ outstanding 100 l3)).
Proof.
  intros Hclaim.
  destruct (Hclaim {| semaphore := 99; active_connections := 1 |}
                   {| semaphore := 100; active_connections := 0 |}
                   eq_refl eq_refl) as [[e Hraise] _].
  discriminate Hraise.
Qed.

(** C8, amended. [release] never raises. Each call adds a permit to the
    semaphore and takes one off [active_connections] without going below
    zero; so a second [release] for one [acquire] goes unnoticed, keeps
    [active_connections] at zero and leaves the semaphore with
    [max_concurrent + 1] permits. *)
Theorem release_is_unchecked self (max_concurrent : Z) :
  release self =
    Ok {| semaphore := semaphore self + 1;
          active_connections := Z.max 0 (active_connections self - 1) |} ∧
  (∀ l1, release self = Ok l1 → 0 ≤ active_connections l1) ∧
  (0 < max_concurrent →
     ∃ l1 l2 l3,
       acquire (__init__ max_concurrent) = Some l1 ∧
       release l1 = Ok l2 ∧
       release l2 = Ok l3 ∧
       active_connections l3 = 0 ∧
       semaphore l3 = max_concurrent + 1 ∧
       outstanding max_concurrent l3 = -1).
Proof.
  split; [done|]. split.
  - intros l1 [= <-]. simpl. lia.
  - intros Hmax. unfold acquire, __init__. simpl.
    rewrite decide_True by done.
    eexists _, _, _. split; [done|]. split; [done|]. split; [done|].
    unfold outstanding. simpl. lia.
Qed.

End ConcurrencyGate.

(** * Further properties of the code *)

(** ** The rate limiter: quota, reset, histories *)
Section LimiterQuota.
Import Limiter.
Local Open Scope Z_scope.
Implicit Types (self : RateLimiter) (c : string) (now t : Z) (times : list Z).

Lemma get_remaining_spec self c now :
  get_remaining self c now =
    let kept := prune (now - window_seconds self) (recorded self c) in
    (Z.max 0 (max_requests self - Z.of_nat (length kept)),
     with_requests self (<[c := kept]> (requests self))).
Proof. done. Qed.

Lemma prune_idem ws times : prune ws (prune ws times) = prune ws times.
Proof. by apply prune_prune. Qed.

(** X1. [get_remaining] and [is_allowed] agree: asked at the same moment
    in the same state, the request is admitted exactly when the remaining
    quota is positive; the quota is never negative and, for a limiter
    with a non-negative [max_requests], never above it. *)
Theorem remaining_agrees_with_verdict self c now :
  (is_allowed self c now).1 = bool_decide (0 < (get_remaining self c now).1) ∧
  0 ≤ (get_remaining self c now).1 ∧
  (get_remaining self c now).1 ≤ Z.max 0 (max_requests self).
Proof.
  rewrite is_allowed_spec, get_remaining_spec. simpl.
  set (n := Z.of_nat (length _)).
  assert (0 ≤ n) by (unfold n; lia).
  split; [|lia].
  apply bool_decide_ext. lia.
Qed.

(** X2. With a positive window, an admitted request uses up exactly one
    unit of the quota as read at the same moment, and a rejected request
    none. *)
Theorem admission_costs_one_unit self c now :
  0 < window_seconds self →
  let out := is_allowed self c now in
  (get_remaining out.2 c now).1 =
    (get_remaining self c now).1 - (if out.1 then 1 else 0).
Proof.
  intros HW. simpl. rewrite is_allowed_spec. simpl.
  rewrite recorded_insert.
  set (kept := prune (now - window_seconds self) (recorded self c)).
  rewrite prune_app. unfold kept at 1. rewrite prune_idem. fold kept.
  case_bool_decide as Hok.
  - unfold prune at 1. rewrite filter_cons_True by lia.
    rewrite filter_nil, length_app. simpl. lia.
  - simpl. rewrite app_nil_r. lia.
Qed.

Lemma admission_costs_one_unit_witness :
  0 < window_seconds rate_limiter ∧
  (get_remaining (is_allowed rate_limiter "alice" 100).2 "alice" 100).1
  = (get_remaining rate_limiter "alice" 100).1 - 1.
Proof.
  assert (0 < window_seconds rate_limiter) as HW by (simpl; lia).
  split; [exact HW|].
  pose proof (admission_costs_one_unit rate_limiter "alice" 100 HW) as Hthm.
  cbv zeta in Hthm.
  replace (is_allowed rate_limiter "alice" 100).1 with true in Hthm
    by (by vm_compute).
  exact Hthm.
Defined.

(** X3. Reading the quota does not use it: after [get_remaining], every
    later check or reading of the same client gives the result it would
    have given without it, and the records of the other clients are as
    they were. *)
Theorem reading_quota_is_free self c now now' :
  now ≤ now' →
  let self1 := (get_remaining self c now).2 in
  is_allowed self1 c now' = is_allowed self c now' ∧
  get_remaining self1 c now' = get_remaining self c now' ∧
  (∀ other, other ≠ c → recorded self1 other = recorded self other).
Proof.
  intros Hle. simpl. rewrite get_remaining_spec. simpl.
  rewrite !is_allowed_spec, !get_remaining_spec. simpl.
  rewrite recorded_insert, prune_prune by lia.
  unfold with_requests. simpl. rewrite !insert_insert_eq.
  split; [done|]. split; [done|].
  intros other Hne. unfold recorded. simpl. by rewrite lookup_insert_ne.
Qed.

Lemma reading_quota_is_free_witness :
  100 ≤ 130 ∧
  is_allowed (get_remaining rate_limiter "alice" 100).2 "alice" 130
  = is_allowed rate_limiter "alice" 130.
Proof.
  assert (100 ≤ 130) as Hle by lia.
  split; [exact Hle|].
  exact (proj1 (reading_quota_is_free rate_limiter "alice" 100 130 Hle)).
Defined.

(** X4. [reset] gives a client its whole quota back and touches nobody
    else; for a client without a record it changes nothing at all. *)
Theorem reset_restores_quota self c now :
  0 < max_requests self →
  (is_allowed (reset self c) c now).1 = true ∧
  (get_remaining (reset self c) c now).1 = max_requests self ∧
  (∀ other, other ≠ c → recorded (reset self c) other = recorded self other) ∧
  (requests self !! c = None → reset self c = self).
Proof.
  intros HM.
  assert (recorded (reset self c) c = []) as Hrec
    by (unfold recorded, reset; simpl; by rewrite lookup_delete_eq).
  split; [|split; [|split]].
  - rewrite is_allowed_spec. simpl. rewrite Hrec. simpl.
    by rewrite bool_decide_true.
  - rewrite get_remaining_spec. simpl. rewrite Hrec. simpl. lia.
  - intros other Hne. unfold recorded, reset. simpl.
    by rewrite lookup_delete_ne.
  - intros Hnone. unfold reset. rewrite delete_id by done. by destruct self.
Qed.

Lemma reset_restores_quota_witness :
  0 < max_requests rate_limiter ∧
  (is_allowed (reset (is_allowed rate_limiter "alice" 100).2 "alice") "alice" 100).1
  = true.
Proof.
  assert (0 < max_requests rate_limiter) as HM by (simpl; lia).
  split; [exact HM|].
  exact (proj1 (reset_restores_quota (is_allowed rate_limiter "alice" 100).2
                  "alice" 100 HM)).
Defined.

End LimiterQuota.

Section LimiterHistories.
Import Limiter.
Local Open Scope Z_scope.
Implicit Types (self : RateLimiter) (c : string) (now t : Z) (times : list Z)
  (calls : list (string * Z)).

(** The log of a history lists its calls, in order. *)
Lemma serve_log_calls self calls :
  (λ entry, entry.1) <$> (serve self calls).2 = calls.
Proof.
  induction calls as [|[c now] calls IH] using rev_ind; [done|].
  rewrite serve_snoc. unfold serve_step.
  destruct (is_allowed _ _ _) as [ok self1]. simpl.
  by rewrite fmap_app, IH.
Qed.

Lemma admitted_is_call c self calls a :
  a ∈ admitted c (serve self calls).2 → a ∈ calls.*2.
Proof.
  intros Ha. unfold admitted in Ha.
  apply list_elem_of_fmap in Ha as ([[c0 now] ok] & -> & Hin).
  apply list_elem_of_filter in Hin as [_ Hin].
  rewrite <- (serve_log_calls self calls).
  apply list_elem_of_fmap. exists (c0, now).
  split; [done|]. apply list_elem_of_fmap. by exists (c0, now, ok).
Qed.

Lemma in_window_prune window now times :
  (∀ a, a ∈ times → a ≤ now) →
  in_window window now times = prune (now - window) times.
Proof.
  intros Hle. unfold in_window, prune.
  induction times as [|a times IH]; [done|].
  assert (a ≤ now) by (apply Hle; left).
  rewrite !filter_cons, IH by (intros b Hb; apply Hle; by right).
  destruct (decide (now - window < a)).
  - by rewrite decide_True by lia.
  - by rewrite decide_False by lia.
Qed.

(** X5. The check is exact. After any history of a fresh limiter on a
    clock that never runs backwards, a request is admitted exactly when
    fewer than [max_requests] admitted requests of the client lie in the
    window that ends now: no client under its limit is ever rejected. *)
Theorem verdict_counts_admitted_in_window (M W : Z) calls c now :
  StronglySorted Z.le (calls.*2 ++ [now]) →
  let st := serve (__init__ M W) calls in
  (is_allowed st.1 c now).1
  = bool_decide (Z.of_nat (length (in_window W now (admitted c st.2))) < M).
Proof.
  intros Hsorted. simpl.
  apply StronglySorted_app in Hsorted as (Hbefore & Hsorted & _).
  assert (∀ a, a ∈ calls.*2 → a ≤ now) as Hnow.
  { intros a Ha. apply (Hbefore a now Ha). by left. }
  destruct (serve_parameters (__init__ M W) calls) as [HMs HWs].
  simpl in HMs, HWs.
  rewrite is_allowed_spec. simpl. rewrite HMs, HWs.
  destruct (decide (0 ≤ M)) as [HM|HM].
  - destruct (serve_invariant (__init__ M W) calls c) as [Hrec _];
      [done | done | done |].
    simpl in Hrec. rewrite <- (Hrec now Hnow).
    rewrite in_window_prune; [done|].
    intros a Ha. apply Hnow. by eapply admitted_is_call.
  - rewrite !bool_decide_false by lia. done.
Qed.

Lemma verdict_counts_admitted_in_window_witness :
  StronglySorted Z.le ([("alice", 0); ("alice", 10)].*2 ++ [20]) ∧
  (is_allowed (serve (__init__ 2 60) [("alice", 0); ("alice", 10)]).1 "alice" 20).1
  = bool_decide
      (Z.of_nat (length (in_window 60 20
         (admitted "alice" (serve (__init__ 2 60) [("alice", 0); ("alice", 10)]).2)))
       < 2).
Proof.
  assert (StronglySorted Z.le ([("alice", 0); ("alice", 10)].*2 ++ [20]))
    as Hsorted by (simpl; repeat constructor; lia).
  split; [exact Hsorted|].
  exact (verdict_counts_admitted_in_window 2 60
           [("alice", 0); ("alice", 10)] "alice" 20 Hsorted).
Defined.

Lemma calls_of_snoc c calls c0 now :
  calls_of c (calls ++ [(c0, now)])
  = calls_of c calls ++ (if decide (c0 = c) then [(c0, now)] else []).
Proof.
  unfold calls_of. rewrite filter_app, filter_cons. simpl.
  by case_decide.
Qed.

Lemma is_allowed_other self c c0 now :
  c0 ≠ c → recorded (is_allowed self c0 now).2 c = recorded self c.
Proof.
  intros Hne. rewrite is_allowed_spec. simpl. by apply recorded_insert_ne.
Qed.

(** What one client can see of a history is settled by its own calls. *)
Lemma serve_calls_of self calls c :
  recorded (serve self calls).1 c = recorded (serve self (calls_of c calls)).1 c ∧
  admitted c (serve self calls).2 = admitted c (serve self (calls_of c calls)).2.
Proof.
  induction calls as [|[c0 now] calls [IHrec IHadm]] using rev_ind; [done|].
  rewrite calls_of_snoc, serve_snoc.
  destruct (serve_parameters self calls) as [HM HW].
  destruct (serve_parameters self (calls_of c calls)) as [HM' HW'].
  destruct (decide (c0 = c)) as [->|Hne].
  - rewrite serve_snoc. unfold serve_step.
    rewrite !is_allowed_spec. simpl.
    rewrite !admitted_snoc, !recorded_insert.
    by rewrite IHrec, IHadm, HM, HW, HM', HW'.
  - rewrite app_nil_r. unfold serve_step.
    pose proof (is_allowed_other (serve self calls).1 c c0 now Hne) as Hother.
    destruct (is_allowed _ _ _) as [ok self1]. simpl in *.
    rewrite admitted_snoc, decide_False by (by intros [? _]).
    by rewrite app_nil_r, Hother.
Qed.

(** X6. Clients do not share quota: the requests of a client that a
    history admits are the ones it admits when the calls of all other
    clients are left out, whatever the limiter held before and whatever
    the clock does. *)
Theorem clients_are_independent self calls c :
  admitted c (serve self calls).2 = admitted c (serve self (calls_of c calls)).2.
Proof. apply serve_calls_of. Qed.

(** X7. [is_allowed] never forgets a client: after a history the limiter
    holds a record, possibly empty, for every identifier it held one for
    and for every identifier that was checked. *)
Theorem records_are_never_dropped self calls :
  dom (requests (serve self calls).1) = dom (requests self) ∪ list_to_set (calls.*1).
Proof.
  induction calls as [|[c now] calls IH] using rev_ind.
  - unfold serve. simpl. by rewrite union_empty_r_L.
  - rewrite serve_snoc. unfold serve_step. rewrite is_allowed_spec. simpl.
    rewrite dom_insert_L, IH, fmap_app, list_to_set_app_L. simpl.
    rewrite union_empty_r_L, (comm_L (∪) {[c]}). by rewrite (assoc_L (∪)).
Qed.

Lemma prune_length ws times : (length (prune ws times) ≤ length times)%nat.
Proof. apply length_filter. Qed.

Lemma limiter_step_bounded self op :
  record_bounded self → record_bounded (limiter_step self op) ∧
  max_requests (limiter_step self op) = max_requests self.
Proof.
  intros Hb. split; [|by destruct op as [c now|c now|c]; simpl;
                         try rewrite is_allowed_spec].
  intros c'. specialize (Hb c') as Hc'.
  destruct op as [c now|c now|c]; simpl.
  - rewrite is_allowed_spec. simpl.
    destruct (decide (c = c')) as [->|Hne].
    + rewrite recorded_insert, length_app.
      case_bool_decide; simpl; [lia|].
      pose proof (prune_length (now - window_seconds self) (recorded self c')).
      lia.
    + by rewrite recorded_insert_ne.
  - destruct (decide (c = c')) as [->|Hne].
    + rewrite recorded_insert.
      pose proof (prune_length (now - window_seconds self) (recorded self c')).
      lia.
    + by rewrite recorded_insert_ne.
  - unfold recorded, reset in *. simpl.
    destruct (decide (c = c')) as [->|Hne].
    + rewrite lookup_delete_eq. simpl.
      pose proof (Hb c'). unfold recorded in *. lia.
    + by rewrite lookup_delete_ne.
Qed.

(** X8. The memory a client costs is bounded: whatever is called on a
    fresh limiter with a non-negative [max_requests] ([is_allowed],
    [get_remaining], [reset], in any order and at any times), the record
    of a client never holds more than [max_requests] timestamps. *)
Theorem record_never_exceeds_max (M W : Z) ops c :
  0 ≤ M →
  Z.of_nat (length (recorded (limiter_run (__init__ M W) ops) c)) ≤ M.
Proof.
  intros HM.
  assert (record_bounded (limiter_run (__init__ M W) ops) ∧
          max_requests (limiter_run (__init__ M W) ops) = M) as [Hb HMs].
  { unfold limiter_run.
    induction ops as [|op ops [IHb IHM]] using rev_ind.
    - split; [|done]. intros c'. unfold recorded. simpl.
      rewrite lookup_empty. simpl. lia.
    - rewrite foldl_snoc.
      destruct (limiter_step_bounded _ op IHb) as [Hb' HM'].
      split; [done | by rewrite HM']. }
  specialize (Hb c). by rewrite HMs in Hb.
Qed.

Lemma record_never_exceeds_max_witness :
  0 ≤ 1 ∧
  Z.of_nat (length (recorded
     (limiter_run (__init__ 1 60)
        [IsAllowed "alice" 0; IsAllowed "alice" 1; GetRemaining "alice" 2])
     "alice")) ≤ 1.
Proof.
  assert (0 ≤ 1) as HM by lia.
  split; [exact HM|].
  exact (record_never_exceeds_max 1 60
           [IsAllowed "alice" 0; IsAllowed "alice" 1; GetRemaining "alice" 2]
           "alice" HM).
Defined.

End LimiterHistories.

(** ** The concurrency gate: pairing and exhaustion *)
Section GateHistories.
Import AsyncLimiter.
Local Open Scope Z_scope.
Implicit Types (self l : AsyncRateLimiter) (ops : list gate_op).

(** The invariant of a gate used in pairs: the permits left and the slots
    held add up to the permits the gate was built with. *)
Lemma gate_run_paired (n : Z) ops : ∀ self (held : nat),
  semaphore self + active_connections self = n →
  active_connections self = Z.of_nat held →
  0 ≤ semaphore self →
  paired held ops = true →
  ∀ l, gate_run self ops = Some l →
  semaphore l + active_connections l = n ∧
  0 ≤ semaphore l ∧ 0 ≤ active_connections l.
Proof.
  induction ops as [|[|] ops IH]; intros self held Hsum Hheld Hsem Hpaired l Hrun.
  - simpl in Hrun. injection Hrun as <-. lia.
  - simpl in Hrun. unfold acquire in Hrun.
    case_decide as Hpos; [|done]. simpl in Hpaired.
    apply (IH _ (S held)) in Hrun; [done|simpl; lia..|done].
  - simpl in Hrun, Hpaired. destruct held as [|held']; [done|].
    apply (IH _ held') in Hrun; [done|simpl; lia..|done].
Qed.

(** X9. A gate whose users release only what they acquired keeps its
    count: after any history in which no prefix exits more often than it
    entered, and which did not stop at a suspended [acquire], the slots
    held and the permits left add up to [max_concurrent], so at most
    [max_concurrent] slots are held. *)
Theorem paired_use_keeps_capacity (max_concurrent : Z) ops l :
  0 ≤ max_concurrent →
  paired 0 ops = true →
  gate_run (__init__ max_concurrent) ops = Some l →
  semaphore l + active_connections l = max_concurrent ∧
  0 ≤ active_connections l ≤ max_concurrent.
Proof.
  intros Hmax Hpaired Hrun.
  destruct (gate_run_paired max_concurrent ops (__init__ max_concurrent) 0)
    with (l := l) as (Hsum & Hsem & Hact); simpl; try done; lia.
Qed.

Lemma paired_use_keeps_capacity_witness :
  0 ≤ 2 ∧
  paired 0 [Enter; Enter; Exit; Enter] = true ∧
  gate_run (__init__ 2) [Enter; Enter; Exit; Enter]
  = Some {| semaphore := 0; active_connections := 2 |} ∧
  0 + 2 = 2.
Proof.
  assert (0 ≤ 2) as Hmax by lia.
  assert (gate_run (__init__ 2) [Enter; Enter; Exit; Enter]
          = Some {| semaphore := 0; active_connections := 2 |}) as Hrun
    by reflexivity.
  split; [exact Hmax|]. split; [reflexivity|]. split; [exact Hrun|].
  exact (proj1 (paired_use_keeps_capacity 2 [Enter; Enter; Exit; Enter] _
                  Hmax eq_refl Hrun)).
Defined.

Lemma gate_run_enters (n : nat) : ∀ self,
  Z.of_nat n ≤ semaphore self →
  gate_run self (replicate n Enter)
  = Some {| semaphore := semaphore self - Z.of_nat n;
            active_connections := active_connections self + Z.of_nat n |}.
Proof.
  induction n as [|n IH]; intros self Hle.
  - simpl. destruct self. simpl. f_equal. f_equal; lia.
  - simpl replicate. simpl gate_run. unfold acquire.
    rewrite decide_True by lia.
    rewrite IH by (simpl; lia). simpl. f_equal. f_equal; lia.
Qed.

(** X10. The gate is exhausted by exactly [max_concurrent] holders:
    that many [acquire] calls in a row succeed, the next one suspends its
    caller, and a slot is to be had again as soon as one holder has
    released. *)
Theorem gate_suspends_at_capacity (n : nat) :
  (0 < n)%nat →
  let full := {| semaphore := 0; active_connections := Z.of_nat n |} in
  gate_run (__init__ (Z.of_nat n)) (replicate n Enter) = Some full ∧
  acquire full = None ∧
  gate_run full [Exit; Enter] = Some full.
Proof.
  intros Hn. simpl. split; [|split].
  - rewrite gate_run_enters by (simpl; lia). simpl. f_equal. f_equal; lia.
  - done.
  - unfold acquire. simpl. f_equal. f_equal. lia.
Qed.

Lemma gate_suspends_at_capacity_witness :
  (0 < 100)%nat ∧
  gate_run async_rate_limiter (replicate 100 Enter)
  = Some {| semaphore := 0; active_connections := 100 |} ∧
  acquire {| semaphore := 0; active_connections := 100 |} = None.
Proof.
  assert (0 < 100)%nat as Hn by lia.
  split; [exact Hn|].
  destruct (gate_suspends_at_capacity 100 Hn) as (Hfill & Hfull & _).
  split; [exact Hfill | exact Hfull].
Defined.

(** X11. [async with] leaves the gate as it found it: an [acquire] that
    succeeds followed by a [release] restores both the permits and the
    count of active connections. *)
Theorem enter_exit_round_trip self :
  0 < semaphore self →
  0 ≤ active_connections self →
  gate_run self [Enter; Exit] = Some self.
Proof.
  intros Hsem Hact. simpl. unfold acquire. rewrite decide_True by done.
  simpl. destruct self as [s a]. simpl in *. f_equal. f_equal; lia.
Qed.

Lemma enter_exit_round_trip_witness :
  0 < semaphore async_rate_limiter ∧
  0 ≤ active_connections async_rate_limiter ∧
  gate_run async_rate_limiter [Enter; Exit] = Some async_rate_limiter.
Proof.
  assert (0 < semaphore async_rate_limiter) as Hsem by (simpl; lia).
  assert (0 ≤ active_connections async_rate_limiter) as Hact by (simpl; lia).
  split; [exact Hsem|]. split; [exact Hact|].
  exact (enter_exit_round_trip async_rate_limiter Hsem Hact).
Defined.

End GateHistories.

(** ** The REST endpoint and the relay loop *)
Section Endpoints.
Import E2B Dispatch.
Implicit Types (ch : channel) (svc : E2BService) (env : sandbox_env)
  (request : CodeExecutionRequest).

(** X12. [execute_code] cannot succeed. Whatever the request, it answers
    with an HTTP error of status 500, leaves the service as it was and
    makes no call to the sandbox API; an unsupported language, for which
    the code raises status 400 inside its [try], is answered with 500 as
    well, the 400 surviving in the detail only. *)
Theorem execute_code_always_fails svc request execution_id limit env :
  (∃ detail,
     execute_code svc request execution_id limit env
     = (HTTPException 500 detail, svc, [])) ∧
  (language request ∉ ["python"; "javascript"] →
     execute_code svc request execution_id limit env
     = (HTTPException 500 "400: Unsupported language", svc, [])).
Proof.
  unfold execute_code. split.
  - case_bool_decide; simpl; [|by eexists].
    case_decide; simpl; by eexists.
  - intros Hlang. by rewrite bool_decide_false.
Qed.

(** X13. The relay loop of [handle_code_execution] forwards the chunks of
    a generator in the order they were yielded and stops at the first
    send that fails: a client that takes [n] more messages receives the
    first [n] chunks and nothing after them, and the loop ends without an
    exception exactly when there were no more than [n] chunks. *)
Theorem relay_delivers_prefix_in_order execution_id chunks ch (n : nat) :
  remaining ch = Some n →
  let out := relay execution_id chunks ch in
  delivered out.2
  = delivered ch ++ take n (execution_output execution_id <$> chunks) ∧
  (raised out.1 = false ↔ (length chunks ≤ n)%nat).
Proof.
  revert ch n. induction chunks as [|chunk rest IH]; intros ch n Hrem; simpl.
  - rewrite take_nil, app_nil_r. split; [done|]. split; [lia | done].
  - unfold send_text. rewrite Hrem. destruct n as [|n]; simpl.
    + rewrite app_nil_r. split; [done|]. split; [done | lia].
    + destruct (IH (hand_over ch (execution_output execution_id chunk) true (Some n))
                   n eq_refl) as [Hd Hr].
      simpl in Hd, Hr. rewrite Hd. simpl. rewrite <- app_assoc. simpl.
      split; [done|]. rewrite Hr. lia.
Qed.

Lemma relay_delivers_prefix_in_order_witness :
  let ch := {| sent := []; delivered := []; remaining := Some 2;
               failure := "" |} in
  remaining ch = Some 2 ∧
  delivered (relay "x1" ["a"; "b"; "c"] ch).2
  = [execution_output "x1" "a"; execution_output "x1" "b"].
Proof.
  simpl. split; [reflexivity|].
  exact (proj1 (relay_delivers_prefix_in_order "x1" ["a"; "b"; "c"]
                  {| sent := []; delivered := []; remaining := Some 2;
                     failure := "" |} 2
                  eq_refl)).
Defined.

End Endpoints.

(** ** The life of a session *)
Section SessionLife.
Import E2B.
Implicit Types (self svc : E2BService) (env : sandbox_env) (p : pool).

Lemma with_sessions_same self : with_sessions self (active_sessions self) = self.
Proof. by destruct self. Qed.

Lemma close_session_keys self session_id close :
  let self1 := (_close_session self session_id close).1 in
  (∀ k, k ∈ dict_keys (active_sessions self1) →
        k ∈ dict_keys (active_sessions self)) ∧
  (NoDup (dict_keys (active_sessions self)) →
   NoDup (dict_keys (active_sessions self1)) ∧
   (close = Ok tt → session_id ∉ dict_keys (active_sessions self1))).
Proof.
  simpl. unfold _close_session.
  destruct (dict_get session_id (active_sessions self)) as [s|] eqn:Hget.
  - destruct close as [[]|e]; simpl.
    + split; [intros k; apply dict_keys_del|].
      intros Hnd. destruct (dict_del_distinct session_id _ Hnd). done.
    + split; [done|]. intros Hnd. split; [done|]. intros [=].
  - simpl. split; [done|]. intros Hnd. split; [done|].
    intros _. by apply dict_get_None.
Qed.

(** Below capacity, or when the eviction went through, a successful
    creation registers the new session. *)
Lemma create_session_ok self session_id evict_close session :
  0 < max_sessions self →
  ∃ self0 log0,
    _create_session self session_id evict_close (Ok session)
    = (Ok session,
       with_sessions self0 (dict_set session_id session (active_sessions self0)),
       log0 ++ [SandboxCreate]) ∧
    max_sessions self0 = max_sessions self ∧
    api_key self0 = api_key self ∧
    (length (active_sessions self) < max_sessions self → self0 = self ∧ log0 = []) ∧
    (∀ k, k ∈ dict_keys (active_sessions self0) →
          k ∈ dict_keys (active_sessions self)) ∧
    (NoDup (dict_keys (active_sessions self)) →
     NoDup (dict_keys (active_sessions self0))).
Proof.
  intros Hmax. unfold _create_session. case_decide as Hfull.
  - destruct (active_sessions self) as [|[k s] rest] eqn:Hd;
      [simpl in Hfull; lia|].
    simpl dict_first. cbv iota.
    pose proof (close_session_keys self k evict_close) as [Hsub Hnd].
    pose proof (close_session_max self k evict_close) as Hm.
    assert (api_key (_close_session self k evict_close).1 = api_key self) as Hk.
    { unfold _close_session. destruct (dict_get _ _); [destruct evict_close|]; done. }
    destruct (_close_session self k evict_close) as [self0 log0]. simpl in *.
    exists self0, log0. rewrite Hd in *.
    split; [done|]. split; [done|]. split; [done|].
    split; [lia|]. split; [done|]. intros H. by apply Hnd.
  - exists self, []. split; [done|]. split; [done|]. split; [done|].
    split; [done|]. split; done.
Qed.



(** X15. A run that ends with a successful [close()] leaves the pool as
    it found it: for an execution id that is not registered and a pool
    below capacity, the service after the run is the service before. *)
Theorem completed_run_restores_pool (i : interpreter) svc code execution_id env session :
  is_available svc = true →
  length (active_sessions svc) < max_sessions svc →
  dict_get execution_id (active_sessions svc) = None →
  create env = Ok session →
  final_close env = Ok tt →
  (execute_in_sandbox i svc code execution_id env).1.2 = svc.
Proof.
  intros Hav Hroom Hfresh Hcreate Hclose.
  unfold execute_in_sandbox. rewrite Hav, Hcreate, Hclose. simpl.
  destruct (create_session_ok svc execution_id (evict_close env) session)
    as (self0 & log0 & Hcs & _ & _ & Hbelow & _); [lia|].
  destruct (Hbelow Hroom) as [-> ->]. rewrite Hcs.
  unfold _close_session. simpl. rewrite dict_get_set_eq. simpl.
  rewrite dict_set_fresh, dict_del_snoc by done.
  by destruct svc.
Qed.

Lemma completed_run_restores_pool_witness :
  let svc := __init__ (Some "e2b_test_key") in
  is_available svc = true ∧
  length (active_sessions svc) < max_sessions svc ∧
  dict_get "x1" (active_sessions svc) = None ∧
  create slow_env = Ok 7 ∧ final_close slow_env = Ok tt ∧
  (execute_in_sandbox Python3 svc "print(1)" "x1" slow_env).1.2 = svc.
Proof.
  simpl. assert (0 < 10) as Hroom by lia.
  split; [reflexivity|]. split; [exact Hroom|]. split; [reflexivity|].
  split; [reflexivity|]. split; [reflexivity|].
  exact (completed_run_restores_pool Python3 (__init__ (Some "e2b_test_key"))
           "print(1)" "x1" slow_env 7 eq_refl Hroom eq_refl eq_refl eq_refl).
Defined.

(** X16. A run whose final [close()] raises leaks its session: the
    session stays registered under the execution id after the run has
    ended, and keeps its slot in the pool. *)
Theorem failed_close_leaks_session (i : interpreter) svc code execution_id env session e :
  is_available svc = true →
  0 < max_sessions svc →
  create env = Ok session →
  final_close env = Raise e →
  let svc1 := (execute_in_sandbox i svc code execution_id env).1.2 in
  dict_get execution_id (active_sessions svc1) = Some session ∧
  (length (active_sessions svc) < max_sessions svc →
   dict_get execution_id (active_sessions svc) = None →
   length (active_sessions svc1) = S (length (active_sessions svc))).
Proof.
  intros Hav Hmax Hcreate Hclose. simpl.
  unfold execute_in_sandbox. rewrite Hav, Hcreate, Hclose. simpl.
  destruct (create_session_ok svc execution_id (evict_close env) session Hmax)
    as (self0 & log0 & Hcs & _ & _ & Hbelow & _).
  rewrite Hcs. unfold _close_session. simpl. rewrite dict_get_set_eq. simpl.
  split; [apply dict_get_set_eq|].
  intros Hroom Hfresh. destruct (Hbelow Hroom) as [-> _].
  rewrite dict_set_length. unfold dict_in. by rewrite Hfresh.
Qed.

Lemma failed_close_leaks_session_witness :
  let svc := __init__ (Some "e2b_test_key") in
  let env := {| evict_close := Ok tt; create := Ok 7; start := Ok slow_process;
                final_close := Raise "sandbox unreachable" |} in
  is_available svc = true ∧ 0 < max_sessions svc ∧
  dict_get "x1"
    (active_sessions (execute_in_sandbox Python3 svc "print(1)" "x1" env).1.2)
  = Some 7.
Proof.
  simpl. assert (0 < 10) as Hmax by lia.
  split; [reflexivity|]. split; [exact Hmax|].
  exact (proj1 (failed_close_leaks_session Python3 (__init__ (Some "e2b_test_key"))
           "print(1)" "x1"
           {| evict_close := Ok tt; create := Ok 7; start := Ok slow_process;
              final_close := Raise "sandbox unreachable" |}
           7 "sandbox unreachable" eq_refl Hmax eq_refl eq_refl)).
Defined.

End SessionLife.

(** ** The pool over histories *)
Section PoolHistories.
Import E2B.
Implicit Types (self svc : E2BService) (p : pool).

(** The keys after the last step of [_create_session], the pool being
    [self0] once the eviction is over. *)
Lemma register_keys self self0 session_id create (log0 : list remote_call) :
  (NoDup (dict_keys (active_sessions self)) →
   NoDup (dict_keys (active_sessions self0))) →
  (∀ k, k ∈ dict_keys (active_sessions self0) →
        k ∈ dict_keys (active_sessions self)) →
  let out :=
    match create with
    | Ok session =>
        (Ok session,
         with_sessions self0 (dict_set session_id session (active_sessions self0)),
         log0 ++ [SandboxCreate])
    | Raise e => (Raise e, self0, log0 ++ [SandboxCreate])
    end in
  (NoDup (dict_keys (active_sessions self)) →
   NoDup (dict_keys (active_sessions out.1.2))) ∧
  (∀ k, k ∈ dict_keys (active_sessions out.1.2) →
        k ∈ dict_keys (active_sessions self) ∨
        (k = session_id ∧ raised out.1.1 = false)).
Proof.
  intros Hnd Hsub. destruct create as [session|e]; simpl.
  - split; [intros H0; by apply dict_set_distinct, Hnd|].
    intros k. rewrite dict_keys_set.
    destruct (dict_in session_id (active_sessions self0)).
    + intros Hk. left. by apply Hsub.
    + intros [Hk| ->%list_elem_of_singleton]%elem_of_app;
        [left; by apply Hsub | by right].
  - split; [done|]. intros k Hk. left. by apply Hsub.
Qed.

Lemma create_session_keys self session_id evict_close create :
  let out := _create_session self session_id evict_close create in
  (NoDup (dict_keys (active_sessions self)) →
   NoDup (dict_keys (active_sessions out.1.2))) ∧
  (∀ k, k ∈ dict_keys (active_sessions out.1.2) →
        k ∈ dict_keys (active_sessions self) ∨
        (k = session_id ∧ raised out.1.1 = false)).
Proof.
  simpl. unfold _create_session. case_decide as Hfull.
  - destruct (dict_first (active_sessions self)) as [oldest|].
    + pose proof (close_session_keys self oldest evict_close) as [Hsub Hnd].
      destruct (_close_session self oldest evict_close) as [self0 log0].
      simpl in Hsub, Hnd.
      apply (register_keys self self0 session_id create log0); [|done].
      intros H0. by apply Hnd.
    + simpl. split; [done|]. intros k Hk. by left.
  - by apply (register_keys self self session_id create []).
Qed.

Lemma pool_step_running_or_probe p op :
  match op with Release _ close => close = Ok tt | _ => True end →
  running_or_probe p → running_or_probe (pool_step p op).
Proof.
  intros Hop [Hnd Hrun]. destruct op as [id ec cr|id cl|ec cr|cl]; simpl.
  - pose proof (create_session_keys (service p) id ec cr) as [Hnd' Hkeys].
    simpl in Hnd', Hkeys.
    destruct (_create_session (service p) id ec cr) as [[[s|e] self1] log];
      simpl in *.
    + split; [by apply Hnd'|]. simpl. intros k Hk.
      rewrite elem_of_app. destruct (Hkeys k Hk) as [Hold|[-> _]].
      * destruct (Hrun k Hold) as [?|?]; [left; by left | by right].
      * left. right. by left.
    + split; [by apply Hnd'|]. simpl. intros k Hk.
      destruct (Hkeys k Hk) as [Hold|[_ [=]]]. by apply Hrun.
  - subst cl.
    pose proof (close_session_keys (service p) id (Ok tt)) as [Hsub Hnd'].
    simpl in Hsub, Hnd'. destruct (Hnd' Hnd) as [Hnd1 Hgone].
    split; [done|]. simpl. intros k Hk.
    destruct (Hrun k (Hsub k Hk)) as [Hin|Hprobe]; [|by right].
    left. apply list_elem_of_filter. split; [|done].
    intros ->. by apply Hgone.
  - unfold running_or_probe, initialize. simpl.
    destruct (is_available (service p)); simpl.
    + pose proof (create_session_keys (service p) "test" ec cr) as [Hnd' Hkeys].
      simpl in Hnd', Hkeys.
      destruct (_create_session (service p) "test" ec cr) as [[[s|e] self1] log];
        simpl in *.
      * split; [by apply Hnd'|]. intros k Hk.
        destruct (Hkeys k Hk) as [Hold|[-> _]]; [|by right].
        destruct (Hrun k Hold) as [?|[-> _]]; [by left | by right].
      * split; [by apply Hnd'|]. intros k Hk.
        destruct (Hkeys k Hk) as [Hold|[_ [=]]].
        destruct (Hrun k Hold) as [?|[-> _]]; [by left | by right].
    + split; [done|]. intros k Hk.
      destruct (Hrun k Hk) as [?|[-> _]]; [by left | by right].
  - split; [constructor|]. simpl. intros k Hk. by apply elem_of_nil in Hk.
Qed.

(** X17. The pool keeps no session for reuse. As long as the [close()]
    at the end of each run returns, every history of runs that start and
    end, of calls of [initialize] and of [cleanup] keeps this: each
    registered session belongs to an execution that is still running, or
    it is the closed probe that [initialize] left under ["test"]; and no
    session id is registered twice. *)
Theorem registered_sessions_are_running_or_probe ops p :
  releases_succeed ops →
  running_or_probe p →
  running_or_probe (pool_run p ops).
Proof.
  unfold pool_run. revert p.
  induction ops as [|op ops IH]; intros p Hops Hp; simpl; [done|].
  apply Forall_cons in Hops as [Hop Hops].
  apply IH; [done|]. apply pool_step_running_or_probe; [|done].
  by destruct op.
Qed.

Lemma registered_sessions_are_running_or_probe_witness :
  releases_succeed probe_then_executions ∧
  running_or_probe fresh_pool ∧
  dict_keys (active_sessions (service (pool_run fresh_pool probe_then_executions)))
    = ["test"; "e0"; "e2"] ∧
  running (pool_run fresh_pool probe_then_executions) = ["e0"; "e2"] ∧
  running_or_probe (pool_run fresh_pool probe_then_executions).
Proof.
  assert (releases_succeed probe_then_executions) as Hops
    by (repeat constructor).
  assert (running_or_probe fresh_pool) as Hfresh.
  { split; [constructor|]. intros k Hk. by apply elem_of_nil in Hk. }
  split; [exact Hops|]. split; [exact Hfresh|].
  split; [by vm_compute|]. split; [by vm_compute|].
  exact (registered_sessions_are_running_or_probe _ fresh_pool Hops Hfresh).
Defined.

(** X18. The pool asks an evicted sandbox to close only once. After
    [_create_session] has evicted the oldest session, the [finally]
    clause of the evicted execution finds its id gone: its
    [_close_session] is a no-op that makes no remote call. *)
Theorem evicted_execution_release_is_noop
    self session_id k s rest create close :
  active_sessions self = (k, s) :: rest →
  NoDup (dict_keys (active_sessions self)) →
  max_sessions self ≤ length (active_sessions self) →
  session_id ≠ k →
  let self1 := (_create_session self session_id (Ok tt) create).1.2 in
  _close_session self1 k close = (self1, []).
Proof.
  intros Hd Hnd Hfull Hne. simpl.
  assert ((_create_session self session_id (Ok tt) create).1.2
          = with_sessions self
              match create with
              | Ok session => dict_set session_id session rest
              | Raise _ => rest
              end) as ->.
  { unfold _create_session. rewrite decide_True by done.
    rewrite Hd at 1. simpl dict_first. cbv iota.
    rewrite (close_oldest_ok self k s rest Hd). by destruct create. }
  rewrite Hd in Hnd. unfold dict_keys in Hnd. simpl in Hnd.
  apply NoDup_cons in Hnd as [Hk _].
  assert (dict_get k rest = None) as Hgone by (by apply dict_get_None).
  unfold _close_session. simpl.
  destruct create as [session|e].
  - by rewrite dict_get_ne, Hgone by done.
  - by rewrite Hgone.
Qed.

Lemma evicted_execution_release_is_noop_witness :
  let self1 := (_create_session (service full_pool) "e10" (Ok tt) (Ok 10)).1.2 in
  max_sessions (service full_pool) ≤ length (active_sessions (service full_pool)) ∧
  _close_session self1 "e0" (Ok tt) = (self1, []).
Proof.
  simpl.
  assert (max_sessions (service full_pool)
          ≤ length (active_sessions (service full_pool))) as Hfull
    by (vm_compute; lia).
  split; [exact Hfull|].
  refine (evicted_execution_release_is_noop (service full_pool) "e10" "e0" 0
            (tail (active_sessions (service full_pool))) (Ok 10) (Ok tt)
            _ _ Hfull _).
  - by vm_compute.
  - apply (bool_decide_unpack _). by vm_compute.
  - done.
Defined.

(** X19. [initialize] spends a slot of the pool. On a service with a key
    and room, it creates a probe sandbox, closes it, and leaves it
    registered under ["test"]: the pool holds one session more, the
    closed sandbox is reported as active, and [cleanup] asks it to close
    a second time. *)
Theorem initialize_keeps_probe_registered
    self evict_close session created_at close :
  is_available self = true →
  length (active_sessions self) < max_sessions self →
  dict_get "test" (active_sessions self) = None →
  let out := initialize self evict_close (Ok session) in
  out = (with_sessions self (active_sessions self ++ [("test", session)]),
         [SandboxCreate; SandboxClose session]) ∧
  get_session_info created_at out.1 "test"
  = Some {| info_session_id := "test"; info_status := "active";
            info_created_at := created_at session |} ∧
  SandboxClose session ∈ (cleanup out.1 close).2.
Proof.
  intros Hav Hroom Hfresh. simpl.
  assert (initialize self evict_close (Ok session)
          = (with_sessions self (active_sessions self ++ [("test", session)]),
             [SandboxCreate; SandboxClose session])) as Hinit.
  { unfold initialize, _create_session. rewrite Hav. simpl.
    rewrite decide_False by lia. simpl. by rewrite dict_set_fresh. }
  rewrite Hinit. simpl. split; [done|]. split.
  - unfold get_session_info. simpl. by rewrite dict_get_app_fresh.
  - rewrite fmap_app. apply elem_of_app. right. by left.
Qed.

Lemma initialize_keeps_probe_registered_witness :
  let self := __init__ (Some "e2b_test_key") in
  is_available self = true ∧
  length (active_sessions self) < max_sessions self ∧
  dict_get "test" (active_sessions self) = None ∧
  initialize self (Ok tt) (Ok 7)
  = (with_sessions self [("test", 7)], [SandboxCreate; SandboxClose 7]).
Proof.
  simpl. assert (0 < 10) as Hroom by lia.
  split; [reflexivity|]. split; [exact Hroom|]. split; [reflexivity|].
  exact (proj1 (initialize_keeps_probe_registered (__init__ (Some "e2b_test_key"))
                  (Ok tt) 7 (λ _, None) (λ _, Ok tt) eq_refl Hroom eq_refl)).
Defined.

(** The listing, once the keys before [suffix] have been entered. *)
Lemma list_active_sessions_from created_at self prefix suffix :
  active_sessions self = prefix ++ suffix →
  NoDup (dict_keys (active_sessions self)) →
  let entry := λ kv : string * AsyncSandbox,
    (kv.1, Some {| info_session_id := kv.1; info_status := "active";
                   info_created_at := created_at kv.2 |}) in
  foldl (λ sessions session_id,
           dict_set session_id (get_session_info created_at self session_id)
             sessions)
        (entry <$> prefix) (dict_keys suffix)
  = entry <$> active_sessions self.
Proof.
  simpl. revert prefix. induction suffix as [|[k v] suffix IH]; intros prefix Hd Hnd.
  - simpl. by rewrite Hd, app_nil_r.
  - simpl.
    assert (k ∉ dict_keys prefix) as Hk.
    { rewrite Hd in Hnd. unfold dict_keys in *. rewrite fmap_app in Hnd.
      apply NoDup_app in Hnd as (_ & Hdisj & _).
      intros Hin. apply (Hdisj k Hin). left. }
    assert (get_session_info created_at self k
            = Some {| info_session_id := k; info_status := "active";
                      info_created_at := created_at v |}) as ->.
    { unfold get_session_info. rewrite Hd.
      rewrite dict_get_app_fresh by (by apply dict_get_None). done. }
    rewrite dict_set_fresh.
    + rewrite <- (IH (prefix ++ [(k, v)])); [by rewrite fmap_app | |done].
      by rewrite <- app_assoc.
    + apply dict_get_None. by rewrite dict_keys_fmap.
Qed.

(** X20. [list_active_sessions] reports every registered session, in the
    order of registration, as active: the listing has one entry per
    session id of the pool, and no entry is empty. *)
Theorem listing_reports_every_session_active created_at self :
  NoDup (dict_keys (active_sessions self)) →
  list_active_sessions created_at self
  = (λ kv, (kv.1, Some {| info_session_id := kv.1; info_status := "active";
                           info_created_at := created_at kv.2 |}))
    <$> active_sessions self.
Proof.
  intros Hnd. unfold list_active_sessions.
  by apply (list_active_sessions_from created_at self []).
Qed.

Lemma listing_reports_every_session_active_witness :
  let self := with_sessions (__init__ (Some "e2b_test_key")) [("test", 7); ("x1", 8)] in
  NoDup (dict_keys (active_sessions self)) ∧
  list_active_sessions (λ _, None) self
  = [("test", Some {| info_session_id := "test"; info_status := "active";
                      info_created_at := None |});
     ("x1", Some {| info_session_id := "x1"; info_status := "active";
                    info_created_at := None |})].
Proof.
  simpl.
  assert (NoDup (dict_keys (active_sessions
            (with_sessions (__init__ (Some "e2b_test_key")) [("test", 7); ("x1", 8)]))))
    as Hnd by (apply (bool_decide_unpack _); by vm_compute).
  split; [exact Hnd|].
  exact (listing_reports_every_session_active (λ _, None) _ Hnd).
Defined.

End PoolHistories.

(** ** The registry: capacity, delivery, endpoint *)
Section RegistryHistories.
Import WS.
Implicit Types (self : WebSocketManager) (websocket ws : WebSocket)
  (c client_id : string) (st : registry).

Lemma disconnect_length self c :
  length (active_connections (disconnect self c))
  ≤ length (active_connections self).
Proof. unfold disconnect. simpl. apply dict_del_length_le. Qed.

Lemma disconnect_distinct self c :
  NoDup (dict_keys (active_connections self)) →
  NoDup (dict_keys (active_connections (disconnect self c))).
Proof. intros Hnd. unfold disconnect. simpl. by apply dict_del_distinct. Qed.

Lemma disconnect_all_get (ids : list string) : ∀ self c,
  NoDup (dict_keys (active_connections self)) →
  dict_get c (active_connections (foldl disconnect self ids))
  = if decide (c ∈ ids) then None else dict_get c (active_connections self).
Proof.
  induction ids as [|id ids IH]; intros self c Hnd.
  - done.
  - simpl foldl. rewrite IH by (by apply disconnect_distinct).
    destruct (decide (c ∈ ids)) as [Hin|Hnotin].
    + by rewrite decide_True by (by right).
    + destruct (decide (c = id)) as [->|Hne].
      * rewrite decide_True by left.
        unfold disconnect. simpl. by apply dict_get_del_eq.
      * rewrite decide_False by (by intros [?|?]%elem_of_cons).
        unfold disconnect. simpl. by apply dict_get_del_ne.
Qed.

Lemma disconnect_all_length (ids : list string) : ∀ self,
  length (active_connections (foldl disconnect self ids))
  ≤ length (active_connections self) ∧
  max_connections (foldl disconnect self ids) = max_connections self.
Proof.
  induction ids as [|id ids IH]; intros self; simpl; [done|].
  destruct (IH (disconnect self id)) as [Hsize Hmax].
  pose proof (disconnect_length self id). split; [lia | by rewrite Hmax].
Qed.

Lemma resumed_length x (l rest : list (string * WebSocket)) :
  resumed x l = Some rest → length l = S (length rest).
Proof.
  revert rest. induction l as [|y l IH]; intros rest; simpl; [done|].
  case_decide.
  - by intros [= <-].
  - destruct (resumed x l) as [r|]; simpl; [|done].
    intros [= <-]. simpl. by rewrite (IH r).
Qed.

(** One step keeps the count of registered and suspended connections
    within the limit plus the number of overlapping admissions. *)
Lemma registry_step_bound st op :
  get_connection_count (manager st) + length (accepting st)
    ≤ max_connections (manager st) + overlapped st →
  max_connections (manager (registry_step st op)) = max_connections (manager st) ∧
  get_connection_count (manager (registry_step st op))
    + length (accepting (registry_step st op))
    ≤ max_connections (manager st) + overlapped (registry_step st op).
Proof.
  unfold get_connection_count. intros Hle.
  destruct op as [ws c|ws c acc|c|m c sd|m ex sd|]; simpl.
  - case_decide as Hfull; [done|]. simpl. split; [done|].
    rewrite length_app. simpl.
    destruct (accepting st); simpl in *; lia.
  - destruct (resumed _ _) as [rest|] eqn:Hres; [|done]. simpl.
    apply resumed_length in Hres. split; [by destruct acc|].
    destruct acc as [[]|e]; simpl; [|lia].
    pose proof (dict_set_length_le c ws (active_connections (manager st))). lia.
  - pose proof (disconnect_length (manager st) c) as Hd. simpl in Hd.
    split; [done | lia].
  - unfold send_personal_message.
    destruct (dict_get c _); [|done].
    destruct sd; [done|]. pose proof (disconnect_length (manager st) c) as Hd.
    simpl in *. split; [done | lia].
  - destruct (disconnect_all_length
      (filter (λ kv, raised (sd kv.1) = true)
              (broadcast_targets (manager st) ex)).*1 (manager st))
      as [Hsize Hmax].
    split; [done | lia].
  - split; [done | lia].
Qed.

Lemma registry_run_bound ops : ∀ st,
  get_connection_count (manager st) + length (accepting st)
    ≤ max_connections (manager st) + overlapped st →
  max_connections (manager (registry_run st ops)) = max_connections (manager st) ∧
  get_connection_count (manager (registry_run st ops))
    + length (accepting (registry_run st ops))
    ≤ max_connections (manager st) + overlapped (registry_run st ops).
Proof.
  unfold registry_run.
  induction ops as [|op ops IH]; intros st Hle; simpl; [done|].
  destruct (registry_step_bound st op Hle) as [Hmax Hstep].
  rewrite <- Hmax in Hstep. destruct (IH _ Hstep) as [Hmax' Hrun].
  rewrite Hmax in Hmax', Hrun. by split.
Qed.

(** A [connect] that nothing interrupts is its two halves in a row. *)
Lemma connect_is_begin_then_end self websocket client_id handshake :
  manager (registry_run (idle self)
             [ConnectBegin websocket client_id;
              ConnectEnd websocket client_id handshake])
  = (connect self websocket client_id handshake).1.2.
Proof.
  unfold registry_run, connect. simpl.
  case_decide; simpl; [done|].
  rewrite decide_True by done. by destruct handshake.
Qed.

(** X21. The capacity check of [connect] bounds the registry only up to
    the connects that overlap. In every history of the two halves of
    [connect] and of [disconnect], [send_personal_message], [broadcast]
    and [close_all_connections], with any outcome of the handshakes and
    sends, the connections registered plus those suspended in [accept]
    number at most [max_connections] plus the count of connects that
    passed the check while another one was suspended. As long as no two
    connects overlap, the registry stays within [max_connections]. *)
Theorem capacity_holds_up_to_overlapping_connects ops self :
  get_connection_count self ≤ max_connections self →
  let st := registry_run (idle self) ops in
  max_connections (manager st) = max_connections self ∧
  get_connection_count (manager st) + length (accepting st)
    ≤ max_connections self + overlapped st ∧
  (overlapped st = 0 →
     get_connection_count (manager st) ≤ max_connections self).
Proof.
  intros Hle. simpl.
  destruct (registry_run_bound ops (idle self)) as [Hmax Hrun].
  { simpl. lia. }
  simpl in Hmax, Hrun. split; [done|]. split; [done|].
  intros Hnone. lia.
Qed.

Lemma capacity_holds_up_to_overlapping_connects_witness :
  let ops := [ConnectBegin 2 "bob"; Disconnect "alice";
              ConnectEnd 2 "bob" (Ok tt)] in
  get_connection_count one_client ≤ max_connections one_client ∧
  overlapped (registry_run (idle one_client) ops) = 0 ∧
  get_connection_count (manager (registry_run (idle one_client) ops))
  ≤ max_connections one_client.
Proof.
  simpl.
  assert (get_connection_count one_client ≤ max_connections one_client)
    as Hle by (unfold one_client, get_connection_count; simpl; lia).
  split; [exact Hle|]. split; [reflexivity|].
  destruct (capacity_holds_up_to_overlapping_connects
              [ConnectBegin 2 "bob"; Disconnect "alice";
               ConnectEnd 2 "bob" (Ok tt)] one_client Hle)
    as (_ & _ & Hseq).
  exact (Hseq eq_refl).
Defined.

(** X28. Two connects that overlap defeat the capacity check. On a
    registry one short of [max_connections], two new clients whose
    connects both pass the check before either has returned from
    [accept] are both registered, behind the clients already there: the
    registry then holds [max_connections + 1] connections. *)
Theorem overlapping_connects_exceed_capacity self ws1 ws2 c1 c2 :
  S (length (active_connections self)) = max_connections self →
  dict_get c1 (active_connections self) = None →
  dict_get c2 (active_connections self) = None →
  c1 ≠ c2 →
  let st := registry_run (idle self) (overlapping_connects ws1 ws2 c1 c2) in
  active_connections (manager st)
    = active_connections self ++ [(c1, ws1); (c2, ws2)] ∧
  get_connection_count (manager st) = S (max_connections self) ∧
  max_connections (manager st) = max_connections self ∧
  accepting st = [] ∧
  overlapped st = 1.
Proof.
  intros Hfull Hc1 Hc2 Hne.
  assert (active_connections
            (manager (registry_run (idle self)
                        (overlapping_connects ws1 ws2 c1 c2)))
          = active_connections self ++ [(c1, ws1); (c2, ws2)]
          ∧ max_connections
              (manager (registry_run (idle self)
                          (overlapping_connects ws1 ws2 c1 c2)))
            = max_connections self
          ∧ accepting (registry_run (idle self)
                         (overlapping_connects ws1 ws2 c1 c2)) = []
          ∧ overlapped (registry_run (idle self)
                          (overlapping_connects ws1 ws2 c1 c2)) = 1)
    as (Hd & Hmax & Hacc & Hov).
  { unfold registry_run, overlapping_connects. simpl.
    destruct (decide (max_connections self ≤ length (active_connections self)))
      as [Hbad|_]; [lia|]. simpl.
    destruct (decide (max_connections self ≤ length (active_connections self)))
      as [Hbad|_]; [lia|]. simpl.
    rewrite decide_True by done. simpl.
    rewrite decide_True by done. simpl.
    rewrite (dict_set_fresh c1) by done.
    rewrite (dict_set_fresh c2).
    - by rewrite <- app_assoc.
    - apply dict_get_None. unfold dict_keys. rewrite fmap_app. simpl.
      rewrite elem_of_app, list_elem_of_singleton.
      intros [Hin|Heq]; [|congruence].
      by apply (dict_get_None c2 (active_connections self)) in Hin. }
  cbv zeta. split; [done|]. split; [|done].
  unfold get_connection_count. rewrite Hd, length_app. simpl. lia.
Qed.

Lemma overlapping_connects_exceed_capacity_witness :
  get_connection_count (crowd 99) = 99 ∧
  max_connections (crowd 99) = 100 ∧
  get_connection_count
    (manager (registry_run (idle (crowd 99))
                (overlapping_connects 200 201 "x" "y"))) = 101.
Proof.
  split; [by vm_compute|]. split; [by vm_compute|].
  destruct (overlapping_connects_exceed_capacity (crowd 99) 200 201 "x" "y")
    as (_ & Hcount & _).
  - by vm_compute.
  - by vm_compute.
  - by vm_compute.
  - done.
  - rewrite Hcount. by vm_compute.
Defined.

Lemma broadcast_targets_spec self exclude_client c ws :
  NoDup (dict_keys (active_connections self)) →
  (c, ws) ∈ broadcast_targets self exclude_client
  ↔ dict_get c (active_connections self) = Some ws ∧ Some c ≠ exclude_client.
Proof.
  intros Hnd. unfold broadcast_targets.
  rewrite list_elem_of_filter. simpl. split.
  - intros [Hex Hin]. split; [by apply dict_get_elem | done].
  - intros [Hget Hex]. split; [done | by apply dict_get_Some_elem].
Qed.

Lemma NoDup_fst_filter {A B : Type} (P : A * B → Prop) `{∀ x, Decision (P x)}
    (l : list (A * B)) :
  NoDup (l.*1) → NoDup ((filter P l).*1).
Proof.
  induction l as [|x l IH]; [done|]. simpl.
  intros [Hx Hl]%NoDup_cons. rewrite filter_cons. case_decide; [|by apply IH].
  simpl. apply NoDup_cons. split; [|by apply IH].
  intros Hin. apply Hx.
  apply list_elem_of_fmap in Hin as (y & -> & Hy).
  apply list_elem_of_filter in Hy as [_ Hy].
  by apply list_elem_of_fmap_2.
Qed.

(** X22. [broadcast] reaches every registered client but the excluded
    one, each once and in the order of registration, and a failing send
    costs only the client it failed for: after the broadcast a client is
    registered exactly when it was before and its own send, if one was
    made, did not raise. *)
Theorem broadcast_isolates_failures self message exclude_client send :
  NoDup (dict_keys (active_connections self)) →
  let out := broadcast self message exclude_client send in
  out.2 = (λ kv, SendText kv.2 message) <$> broadcast_targets self exclude_client ∧
  NoDup (broadcast_targets self exclude_client).*1 ∧
  (∀ c ws, (c, ws) ∈ broadcast_targets self exclude_client
           ↔ dict_get c (active_connections self) = Some ws
             ∧ Some c ≠ exclude_client) ∧
  (∀ c, dict_get c (active_connections out.1)
        = if decide (Some c ≠ exclude_client ∧ raised (send c) = true)
          then None else dict_get c (active_connections self)).
Proof.
  intros Hnd. simpl. split; [done|]. split; [|split].
  - by apply NoDup_fst_filter.
  - intros c ws. by apply broadcast_targets_spec.
  - intros c. unfold broadcast. simpl. rewrite disconnect_all_get by done.
    destruct (dict_get c (active_connections self)) as [ws|] eqn:Hc.
    + destruct (decide (Some c ≠ exclude_client ∧ raised (send c) = true))
        as [[Hex Hfail]|Hkeep].
      * rewrite decide_True; [done|].
        apply list_elem_of_fmap. exists (c, ws). split; [done|].
        apply list_elem_of_filter. split; [done|].
        by apply broadcast_targets_spec.
      * rewrite decide_False; [done|].
        intros ([c' ws'] & Hcc & Hin)%list_elem_of_fmap. simpl in Hcc. subst c'.
        apply list_elem_of_filter in Hin as [Hfail Hin]. simpl in Hfail.
        apply broadcast_targets_spec in Hin as [_ Hex]; [|done]. by apply Hkeep.
    + by repeat case_decide.
Qed.

Lemma broadcast_isolates_failures_witness :
  let send := λ c : string, if decide (c = "bob") then Raise "gone" else Ok tt in
  NoDup (dict_keys (active_connections three_clients)) ∧
  (broadcast three_clients "hi" (Some "alice") send).2
    = [SendText 2 "hi"; SendText 3 "hi"].
Proof.
  simpl.
  assert (NoDup (dict_keys (active_connections three_clients))) as Hnd
    by (apply (bool_decide_unpack _); by vm_compute).
  split; [exact Hnd|].
  exact (proj1 (broadcast_isolates_failures three_clients "hi" (Some "alice")
                  (λ c : string, if decide (c = "bob") then Raise "gone" else Ok tt)
                  Hnd)).
Defined.

(** X23. [disconnect] undoes the [connect] of a new client, and a second
    [disconnect] changes nothing: removal is by client id, whether or not
    the id is registered. *)
Theorem connect_disconnect_round_trip self websocket client_id :
  NoDup (dict_keys (active_connections self)) →
  dict_get client_id (active_connections self) = None →
  length (active_connections self) < max_connections self →
  disconnect (connect self websocket client_id (Ok tt)).1.2 client_id = self ∧
  disconnect self client_id = self ∧
  (∀ c, disconnect (disconnect self c) c = disconnect self c).
Proof.
  intros Hnd Hnew Hroom. unfold connect. rewrite decide_False by lia.
  unfold disconnect, with_connections. simpl.
  rewrite dict_del_set. rewrite dict_del_absent by done.
  split; [by destruct self|]. split; [by destruct self|].
  intros c. f_equal. apply dict_del_absent. by apply dict_get_del_eq.
Qed.

Lemma connect_disconnect_round_trip_witness :
  NoDup (dict_keys (active_connections one_client)) ∧
  dict_get "bob" (active_connections one_client) = None ∧
  length (active_connections one_client) < max_connections one_client ∧
  disconnect (connect one_client 2 "bob" (Ok tt)).1.2 "bob" = one_client.
Proof.
  assert (NoDup (dict_keys (active_connections one_client))) as Hnd
    by (apply (bool_decide_unpack _); by vm_compute).
  assert (dict_get "bob" (active_connections one_client) = None) as Hnew
    by reflexivity.
  assert (length (active_connections one_client) < max_connections one_client)
    as Hroom by (unfold one_client; simpl; lia).
  split; [exact Hnd|]. split; [exact Hnew|]. split; [exact Hroom|].
  exact (proj1 (connect_disconnect_round_trip one_client 2 "bob" Hnd Hnew Hroom)).
Defined.

(** X24. Once [websocket_endpoint] has returned, its client id is not
    registered any more, whichever channel the registration was for: the
    registry is the one the endpoint started with, minus the client id.
    This holds also when the connection was refused for capacity, so a
    client whose second connection is refused loses its first one when
    the refused endpoint ends. *)
Theorem endpoint_unregisters_client_id self websocket client_id :
  NoDup (dict_keys (active_connections self)) →
  websocket_endpoint self websocket client_id (Ok tt)
  = (Ok tt, disconnect self client_id) ∧
  is_connected (websocket_endpoint self websocket client_id (Ok tt)).2 client_id
  = false.
Proof.
  intros Hnd.
  assert (websocket_endpoint self websocket client_id (Ok tt)
          = (Ok tt, disconnect self client_id)) as Hend.
  { unfold websocket_endpoint, connect. case_decide; simpl; [done|].
    unfold disconnect, with_connections. simpl. by rewrite dict_del_set. }
  split; [done|]. rewrite Hend. unfold is_connected, disconnect, dict_in. simpl.
  by rewrite dict_get_del_eq.
Qed.

Lemma endpoint_unregisters_client_id_witness :
  NoDup (dict_keys (active_connections one_client)) ∧
  websocket_endpoint one_client 2 "alice" (Ok tt)
  = (Ok tt, with_connections one_client []).
Proof.
  assert (NoDup (dict_keys (active_connections one_client))) as Hnd
    by (apply (bool_decide_unpack _); by vm_compute).
  split; [exact Hnd|].
  exact (proj1 (endpoint_unregisters_client_id one_client 2 "alice" Hnd)).
Defined.

End RegistryHistories.

(** ** Command lines *)
Section Commands.
Import E2B.
Implicit Types (s t new code : string) (c : Ascii.ascii).

Lemma append_cons c s t : String c s +:+ t = String c (s +:+ t).
Proof. reflexivity. Qed.

Lemma append_empty t : EmptyString +:+ t = t.
Proof. reflexivity. Qed.

Lemma chars_app s t : chars (s +:+ t) = chars s ++ chars t.
Proof.
  induction s as [|c s IH]; [done|].
  rewrite append_cons. simpl. by rewrite IH.
Qed.

Lemma append_assoc s t u : (s +:+ t) +:+ u = s +:+ (t +:+ u).
Proof.
  induction s as [|c s IH]; [done|].
  rewrite !append_cons. by rewrite IH.
Qed.

Lemma replace_char_app c new s t :
  replace_char c new (s +:+ t) = replace_char c new s +:+ replace_char c new t.
Proof.
  induction s as [|c' s IH]; [done|].
  rewrite append_cons. simpl.
  case_decide; rewrite IH; [by rewrite append_assoc | done].
Qed.

Lemma replace_char_absent c new s :
  c ∉ chars s → replace_char c new s = s.
Proof.
  induction s as [|c' s IH]; simpl; [done|].
  intros [Hne Hs]%not_elem_of_cons.
  rewrite decide_False by done. by rewrite IH.
Qed.

Lemma replace_char_removes c new s :
  c ∉ chars new → c ∉ chars (replace_char c new s).
Proof.
  intros Hnew. induction s as [|c' s IH]; simpl; [apply not_elem_of_nil|].
  case_decide as Hc.
  - rewrite chars_app. by intros [?|?]%elem_of_app.
  - simpl. by intros [?|?]%elem_of_cons.
Qed.

(** X25. The command handed to the sandbox is a single line: whatever
    the code, for both interpreters, it contains no newline character. *)
Theorem command_is_one_line (i : interpreter) code :
  newline ∉ chars (command i code).
Proof.
  destruct i; unfold command, _wrap_python_code, _wrap_javascript_code;
    rewrite !chars_app; intros [Hin|[Hin|Hin]%elem_of_app]%elem_of_app.
  - revert Hin. apply (bool_decide_unpack _). by vm_compute.
  - revert Hin. apply replace_char_removes.
    apply (bool_decide_unpack _). by vm_compute.
  - revert Hin. apply (bool_decide_unpack _). by vm_compute.
  - revert Hin. apply (bool_decide_unpack _). by vm_compute.
  - revert Hin. apply replace_char_removes.
    apply (bool_decide_unpack _). by vm_compute.
  - revert Hin. apply (bool_decide_unpack _). by vm_compute.
Qed.

(** X26. Code without a quote and without a newline reaches the
    interpreter unchanged: [_wrap_python_code] only puts a fixed text
    before it and a fixed text after it, the lines of the template joined
    by semicolons. *)
Theorem plain_code_is_wrapped_verbatim code :
  quote ∉ chars code →
  newline ∉ chars code →
  _wrap_python_code code = python_before +:+ code +:+ python_after.
Proof.
  intros Hquote Hnl. unfold _wrap_python_code.
  rewrite (replace_char_absent quote) by done.
  change (String.concat nl (python_template code))
    with ((nl +:+ "import sys" +:+ nl +:+ "import traceback" +:+ nl +:+ nl
           +:+ "try:" +:+ nl +:+ "    ")
          +:+ code
          +:+ (nl +:+ "except Exception as e:" +:+ nl
               +:+ "    print(f" +:+ str dquote +:+ "Error: {e}" +:+ str dquote
               +:+ ", file=sys.stderr)" +:+ nl
               +:+ "    traceback.print_exc(file=sys.stderr)" +:+ nl)).
  rewrite !replace_char_app. rewrite (replace_char_absent newline _ code) by done.
  f_equal.
Qed.

Lemma plain_code_is_wrapped_verbatim_witness :
  (quote ∉ chars "print(1)") ∧ (newline ∉ chars "print(1)") ∧
  _wrap_python_code "print(1)" = python_before +:+ "print(1)" +:+ python_after.
Proof.
  assert (quote ∉ chars "print(1)") as Hquote
    by (apply (bool_decide_unpack _); by vm_compute).
  assert (newline ∉ chars "print(1)") as Hnl
    by (apply (bool_decide_unpack _); by vm_compute).
  split; [exact Hquote|]. split; [exact Hnl|].
  exact (plain_code_is_wrapped_verbatim "print(1)" Hquote Hnl).
Defined.

Lemma ends_with_newline_nl s : ends_with_newline (s +:+ nl).
Proof. unfold ends_with_newline. rewrite chars_app. apply last_snoc. Qed.

(** X27. Every chunk a generator yields on a service with a key ends a
    line: output lines, the exit-code notice and error reports all end
    with a newline, so chunks joined one after the other keep their line
    structure. *)
Theorem chunks_end_with_newline (i : interpreter) (svc : E2BService)
    code execution_id (env : sandbox_env) :
  is_available svc = true →
  Forall ends_with_newline (execute_in_sandbox i svc code execution_id env).1.1.
Proof.
  intros Hav. unfold execute_in_sandbox. rewrite Hav. simpl.
  assert (∀ e, ends_with_newline (error_chunk e)) as Herr.
  { intros e. unfold error_chunk. rewrite <- append_assoc.
    apply ends_with_newline_nl. }
  destruct (_create_session _ _ _ _) as [[[session|e] self1] log1]; simpl.
  - destruct (_close_session _ _ _) as [self2 log2]. simpl.
    destruct (start env) as [p|e]; [|by repeat constructor].
    unfold stream_output. apply Forall_app. split.
    + apply Forall_fmap, Forall_forall. intros line _. simpl.
      apply ends_with_newline_nl.
    + destruct (output_error p); [by repeat constructor|].
      case_decide; [|constructor]. repeat constructor.
      unfold exit_chunk. rewrite <- append_assoc. apply ends_with_newline_nl.
  - by repeat constructor.
Qed.

Lemma chunks_end_with_newline_witness :
  is_available (__init__ (Some "e2b_test_key")) = true ∧
  Forall ends_with_newline
    (execute_in_sandbox Python3 (__init__ (Some "e2b_test_key"))
       "print(1)" "x1" slow_env).1.1.
Proof.
  split; [reflexivity|].
  exact (chunks_end_with_newline Python3 (__init__ (Some "e2b_test_key"))
           "print(1)" "x1" slow_env eq_refl).
Defined.

End Commands.
